(** * pegjs2-runtime-js: the parse-state runtime and its error descriptor

    A shallow embedding of [parser-state.js] (class [ParserState]) and of
    [syntax-error.js] (the description functions and [buildMessage]).

    Conventions of the embedding.
    - A JavaScript string is a sequence of code units.  Here it is a
      [string] of the standard library, so code units range over 0..255;
      every character the source treats specially (the newline, the
      escaped control ranges 0x00-0x1F and 0x7F-0x9F, quotes, brackets)
      lies in that range.
    - The built-in [toLowerCase] is an argument of [matchLiteralIC], as
      the test of a regular expression is an argument of [matchClass]:
      nothing is assumed of it, in particular not that it keeps the length
      of a text.  [JS.toLowerCase] is the built-in on texts over the code
      units 0..255, used where a concrete text is lower-cased.
    - Offsets, lines and columns are natural numbers.
    - A JavaScript array is a [list] in the array's own order: index 0
      first, [push] appends at the end, [pop] removes the last element.
    - The sparse array [_cache] is a finite map from offsets to position
      details.
    - A step that reads a property of [undefined] throws a [TypeError] and
      ends in [UndefinedRead]; a loop with no exit ends in [NoExit].  The
      value [undefined] spliced into a string is the text [undefined], and
      no error. *)

From Stdlib Require Import Ascii String ZArith Lia OrderedTypeEx.
From stdpp Require Import base option list sorting gmap strings pretty.

Local Open Scope Z_scope.
Local Open Scope nat_scope.

(** ** Executions that may leave the normal path *)

Inductive Exec (A : Type) : Type :=
| Done (a : A)
| UndefinedRead
| NoExit.
Arguments Done {A} a.
Arguments UndefinedRead {A}.
Arguments NoExit {A}.

Definition bindE {A B : Type} (m : Exec A) (k : A -> Exec B) : Exec B :=
  match m with
  | Done a => k a
  | UndefinedRead => UndefinedRead
  | NoExit => NoExit
  end.

Notation "'do' x <- m ; k" := (bindE m (fun x => k))
  (at level 10, x pattern, m at level 100, k at level 200, only parsing).

Definition defined {A : Type} (o : option A) : Exec A :=
  match o with
  | Some a => Done a
  | None => UndefinedRead
  end.

(** ** JavaScript string and array primitives used by the source *)

Module JS.

(** [s.length] *)
Definition length (s : string) : nat := String.length s.

(** [s.charCodeAt(p)]: [None] stands for [NaN]. *)
Definition charCodeAt (s : string) (p : nat) : option nat :=
  nat_of_ascii <$> String.get p s.

(** [s.charAt(p)]: the empty string outside the string. *)
Definition charAt (s : string) (p : nat) : string :=
  match String.get p s with
  | Some c => String c EmptyString
  | None => EmptyString
  end.

(** [s.substr(from, len)] and [s.substring(from, to)], for offsets that
    are natural numbers. *)
Definition substr (s : string) (from len : nat) : string :=
  String.substring from len s.

Definition substring (s : string) (from to : nat) : string :=
  String.substring (Nat.min from to) (Nat.max from to - Nat.min from to) s.

(** [s.replace(/[...]/g, f)] for a pattern that matches one code unit. *)
Fixpoint replace (p : ascii -> bool) (f : ascii -> string) (s : string)
  : string :=
  match s with
  | EmptyString => EmptyString
  | String c s' =>
      (if p c then f c else String c EmptyString) +:+ replace p f s'
  end.

(** [a.join(sep)] *)
Fixpoint join (sep : string) (a : list string) : string :=
  match a with
  | [] => EmptyString
  | [x] => x
  | x :: rest => x +:+ sep +:+ join sep rest
  end.

(** [a[i]] for an integer index: [None] is [undefined]. *)
Definition index {A : Type} (a : list A) (i : Z) : option A :=
  if (i <? 0)%Z then None else a !! Z.to_nat i.

(** A value in front of or behind a string: [undefined] contributes the
    text [undefined]. *)
Definition to_text (v : option string) : string :=
  match v with
  | Some s => s
  | None => "undefined"
  end.

(** [a.slice(0, -1)] *)
Definition slice_0_m1 {A : Type} (a : list A) : list A :=
  take (List.length a - 1) a.

(** [toLowerCase] on texts over the code units 0..255: the Latin capital
    letters A-Z and the capitals 0xC0-0xDE other than the multiplication
    sign 0xD7 move up by 0x20.  Outside these code units the built-in can
    change the length of a text. *)
Definition lower_unit (c : ascii) : ascii :=
  let n := nat_of_ascii c in
  if (65 <=? n) && (n <=? 90) then ascii_of_nat (n + 32)
  else if (192 <=? n) && (n <=? 222) && negb (n =? 215)
       then ascii_of_nat (n + 32)
  else c.

Fixpoint toLowerCase (s : string) : string :=
  match s with
  | EmptyString => EmptyString
  | String c s' => String (lower_unit c) (toLowerCase s')
  end.

(** The default [a.sort()] on an array of strings orders by code units,
    lexicographically.  The order is total and antisymmetric, so every
    sorting algorithm yields the same array; merge sort is used here. *)
Definition str_le (a b : string) : Prop := String.leb a b = true.

#[global] Instance str_le_dec : RelDecision str_le :=
  fun a b => decide (String.leb a b = true).

Definition sort (a : list string) : list string := merge_sort str_le a.

End JS.

(** ** syntax-error.js *)

Inductive ClassPart : Type :=
| PartChar (c : string)
| PartRange (low high : string).

Inductive Expectation : Type :=
| ELiteral (text : string)
| EClass (parts : list ClassPart) (inverted : bool)
| EAny
| EEnd
| ERule (description : string)
| EUser (description : string)
| ENot (expected : Expectation).

Definition is_unit (n : nat) (c : ascii) : bool := nat_of_ascii c =? n.

Definition in_range (lo hi : nat) (c : ascii) : bool :=
  (lo <=? nat_of_ascii c) && (nat_of_ascii c <=? hi).

Definition dquote : ascii := "034"%char.

Definition hex_digit (n : nat) : ascii :=
  if n <? 10 then ascii_of_nat (48 + n) else ascii_of_nat (55 + n).

(** [ch.charCodeAt(0).toString(16).toUpperCase()]: a code unit below 256
    has one or two hexadecimal digits. *)
Definition hex (ch : ascii) : string :=
  let n := nat_of_ascii ch in
  if n <? 16 then String (hex_digit n) EmptyString
  else String (hex_digit (n / 16)) (String (hex_digit (n mod 16)) EmptyString).

Definition literalEscape (s : string) : string :=
  let s := JS.replace (is_unit 92) (fun _ => "\\") s in
  let s := JS.replace (is_unit 34) (fun _ => String "\" (String dquote EmptyString)) s in
  let s := JS.replace (is_unit 0) (fun _ => "\0") s in
  let s := JS.replace (is_unit 9) (fun _ => "\t") s in
  let s := JS.replace (is_unit 10) (fun _ => "\n") s in
  let s := JS.replace (is_unit 13) (fun _ => "\r") s in
  let s := JS.replace (in_range 0 15) (fun ch => "\x0" +:+ hex ch) s in
  JS.replace (fun c => in_range 16 31 c || in_range 127 159 c)
             (fun ch => "\x" +:+ hex ch) s.

Definition classEscape (s : string) : string :=
  let s := JS.replace (is_unit 92) (fun _ => "\\") s in
  let s := JS.replace (is_unit 93) (fun _ => "\]") s in
  let s := JS.replace (is_unit 94) (fun _ => "\^") s in
  let s := JS.replace (is_unit 45) (fun _ => "\-") s in
  let s := JS.replace (is_unit 0) (fun _ => "\0") s in
  let s := JS.replace (is_unit 9) (fun _ => "\t") s in
  let s := JS.replace (is_unit 10) (fun _ => "\n") s in
  let s := JS.replace (is_unit 13) (fun _ => "\r") s in
  let s := JS.replace (in_range 0 15) (fun ch => "\x0" +:+ hex ch) s in
  JS.replace (fun c => in_range 16 31 c || in_range 127 159 c)
             (fun ch => "\x" +:+ hex ch) s.

Definition describePart (part : ClassPart) : string :=
  match part with
  | PartRange low high => classEscape low +:+ "-" +:+ classEscape high
  | PartChar c => classEscape c
  end.

(** [DESCRIBE_EXPECTATION_FNS[expectation.type](expectation)].  In the
    [class] case the array [escapedParts] is concatenated to a string, which
    joins its elements with a comma. *)
Fixpoint describeExpectation (expectation : Expectation) : string :=
  match expectation with
  | ELiteral text => String dquote (literalEscape text) +:+ String dquote EmptyString
  | EClass parts inverted =>
      "[" +:+ (if inverted then "^" else EmptyString)
          +:+ JS.join "," (describePart <$> parts) +:+ "]"
  | EAny => "any character"
  | EEnd => "end of input"
  | ERule description => description
  | EUser description => description
  | ENot expected => "not " +:+ describeExpectation expected
  end.

(** One turn of the loop that removes adjacent duplicates in place:
    [if (d[i - 1] !== d[i]) { d[j] = d[i]; j++; }].  The index [j] never
    passes [i], so the write stays inside the array. *)
Definition dedupe_step (acc : list string * nat) (i : nat) : list string * nat :=
  let '(d, j) := acc in
  if decide (d !! (i - 1) ≠ d !! i)
  then (match d !! i with Some x => <[j := x]> d | None => d end, S j)
  else (d, j).

(** [for (let i = 1; i < d.length; i++) ...] followed by [d.length = j]. *)
Definition dedupe (d : list string) : list string :=
  if 0 <? length d then
    let '(d', j) := fold_left dedupe_step (seq 1 (length d - 1)) (d, 1) in
    take j d'
  else d.

(** No step of [describeExpected] throws: an index outside the array gives
    [undefined], which a concatenation turns into text, here or in
    [buildMessage]. *)
Definition describeExpected (expected : list Expectation) : Exec string :=
  let descriptions := describeExpectation <$> expected in
  let descriptions := JS.sort descriptions in
  let descriptions := dedupe descriptions in
  match length descriptions with
  | 1 => Done (JS.to_text (JS.index descriptions 0))
  | 2 =>
      Done (JS.to_text (JS.index descriptions 0) +:+ " or "
              +:+ JS.to_text (JS.index descriptions 1))
  | _ =>
      Done (JS.join ", " (JS.slice_0_m1 descriptions) +:+ ", or "
              +:+ JS.to_text
                    (JS.index descriptions (Z.of_nat (length descriptions) - 1)))
  end.

(** [found ? ... : "end of input"]: [null] and the empty string are the
    two falsy values a [found] can take. *)
Definition describeFound (found : option string) : string :=
  match found with
  | Some (String c s) =>
      String dquote (literalEscape (String c s)) +:+ String dquote EmptyString
  | Some EmptyString => "end of input"
  | None => "end of input"
  end.

Record Position : Type := {
  p_offset : nat;
  p_line : nat;
  p_column : nat
}.

Record Location : Type := {
  source : option string;
  start : Position;
  end_ : Position
}.

Module SyntaxError.

Record t : Type := {
  message : string;
  expected : option (list Expectation);
  found : option string;
  location : Location
}.

Definition buildMessage (expected : list Expectation) (found : option string)
  : Exec string :=
  do d <- describeExpected expected;
  Done ("Expected " +:+ d +:+ " but " +:+ describeFound found +:+ " found.").

End SyntaxError.

Definition buildStructuredError (expected : list Expectation)
    (found : option string) (location : Location) : Exec SyntaxError.t :=
  do m <- SyntaxError.buildMessage expected found;
  Done {| SyntaxError.message := m;
          SyntaxError.expected := Some expected;
          SyntaxError.found := found;
          SyntaxError.location := location |}.

(** ** parser-state.js *)

Record Frame : Type := {
  offset : nat;
  variants : list Expectation
}.

Record PosDetails : Type := {
  line : nat;
  column : nat
}.

Record ParserState : Type := {
  input : string;
  _source : option string;
  _offset : nat;
  _mark : nat;
  _expected : list Frame;
  _cache : gmap nat PosDetails
}.

Definition set_offset (o : nat) (st : ParserState) : ParserState :=
  {| input := input st; _source := _source st; _offset := o;
     _mark := _mark st; _expected := _expected st; _cache := _cache st |}.

Definition set_mark (m : nat) (st : ParserState) : ParserState :=
  {| input := input st; _source := _source st; _offset := _offset st;
     _mark := m; _expected := _expected st; _cache := _cache st |}.

Definition set_expected (e : list Frame) (st : ParserState) : ParserState :=
  {| input := input st; _source := _source st; _offset := _offset st;
     _mark := _mark st; _expected := e; _cache := _cache st |}.

Definition set_cache (c : gmap nat PosDetails) (st : ParserState) : ParserState :=
  {| input := input st; _source := _source st; _offset := _offset st;
     _mark := _mark st; _expected := _expected st; _cache := c |}.

(** [constructor(input, source, offset = 0, line = 1, column = 1)]: the
    array literal [[{ line, column }]] has its single element at index 0. *)
Definition new_ParserState (input : string) (source : option string)
    (offset line column : nat) : ParserState :=
  {| input := input; _source := source; _offset := offset; _mark := offset;
     _expected := [];
     _cache := {[ 0 := {| line := line; column := column |} ]} |}.

(** The sentinel [ParserState.FAILED] against any other value. *)
Inductive Result (A : Type) : Type :=
| FAILED
| Matched (a : A).
Arguments FAILED {A}.
Arguments Matched {A} a.

(** A call either returns or throws a [SyntaxError]. *)
Inductive Completion (A : Type) : Type :=
| Returns (a : A)
| Throws (e : SyntaxError.t).
Arguments Returns {A} a.
Arguments Throws {A} e.

Definition range (st : ParserState) : nat * nat := (_mark st, _offset st).

Definition text (st : ParserState) : string :=
  JS.substring (input st) (_mark st) (_offset st).

(** [do { --p; details = cache[p]; } while (!details);] entered with [p].
    Below index 0 no entry is ever stored, so there the loop has no exit. *)
Fixpoint nearest_below (cache : gmap nat PosDetails) (p : nat)
  : Exec (nat * PosDetails) :=
  match p with
  | 0 => NoExit
  | S p' =>
      match cache !! p' with
      | Some details => Done (p', details)
      | None => nearest_below cache p'
      end
  end.

(** One turn of [while (p < pos) { ...; p++; }]. *)
Definition advance (input : string) (p : nat) (details : PosDetails) : PosDetails :=
  if decide (JS.charCodeAt input p = Some 10)
  then {| line := S (line details); column := 1 |}
  else {| line := line details; column := S (column details) |}.

(** [n] turns of the loop, starting at [p]. *)
Fixpoint scan (input : string) (n p : nat) (details : PosDetails) : PosDetails :=
  match n with
  | 0 => details
  | S n' => scan input n' (S p) (advance input p details)
  end.

Definition _computePosDetails (pos : nat) (st : ParserState)
  : Exec (PosDetails * ParserState) :=
  match _cache st !! pos with
  | Some details => Done (details, st)
  | None =>
      do (p, details) <- nearest_below (_cache st) pos;
      let details := scan (input st) (pos - p) p details in
      Done (details, set_cache (<[pos := details]> (_cache st)) st)
  end.

Definition _computeLocation (startPos endPos : nat) (st : ParserState)
  : Exec (Location * ParserState) :=
  do (startPosDetails, st) <- _computePosDetails startPos st;
  do (endPosDetails, st) <- _computePosDetails endPos st;
  Done ({| source := _source st;
           start := {| p_offset := startPos;
                       p_line := line startPosDetails;
                       p_column := column startPosDetails |};
           end_ := {| p_offset := endPos;
                      p_line := line endPosDetails;
                      p_column := column endPosDetails |} |}, st).

Definition location (st : ParserState) : Exec (Location * ParserState) :=
  _computeLocation (_mark st) (_offset st) st.

(** [expected(description, location)] and [error(message, location)]: both
    throw; an omitted [location] argument is [None]. *)
Definition expected (description : string) (loc : option Location)
    (st : ParserState) : Exec (Completion Empty_set * ParserState) :=
  do (l, st') <- match loc with
                 | Some l => Done (l, st)
                 | None => location st
                 end;
  do e <- buildStructuredError [EUser description] (Some (text st)) l;
  Done (Throws e, st').

Definition error (message : string) (loc : option Location)
    (st : ParserState) : Exec (Completion Empty_set * ParserState) :=
  do (l, st') <- match loc with
                 | Some l => Done (l, st)
                 | None => location st
                 end;
  Done (Throws {| SyntaxError.message := message;
                  SyntaxError.expected := None;
                  SyntaxError.found := None;
                  SyntaxError.location := l |}, st').

(** In-place update of the object at the last index of the stack. *)
Definition set_top (f : Frame) (stack : list Frame) : list Frame :=
  <[length stack - 1 := f]> stack.

Definition _begin (st : ParserState) : ParserState :=
  set_expected (_expected st ++ [{| offset := _offset st; variants := [] |}]) st.

(** [e.type === 'not' ? e.expected : { type: 'not', expected: e }] *)
Definition invert_variant (e : Expectation) : Expectation :=
  match e with
  | ENot inner => inner
  | _ => ENot e
  end.

(** [_end]: a [TypeError] ends the call in [UndefinedRead]; the state it
    leaves behind is the one of [_end_attempt] below. *)
Definition _end (invert : bool) (st : ParserState) : Exec ParserState :=
  do expected <- defined (last (_expected st));
  let stack := removelast (_expected st) in
  do top <- defined (last stack);
  let vs := variants expected in
  if decide (offset top ≠ offset expected) then Done (set_expected stack st)
  else
    let vs := if invert then invert_variant <$> vs else vs in
    let top := {| offset := offset top; variants := variants top ++ vs |} in
    Done (set_expected (set_top top stack) st).

(** [_end] with the state that a [TypeError] leaves behind: on an empty
    stack [pop] removes nothing and [expected.variants] throws; on a stack
    of one frame [pop] has removed that frame when [top.offset] throws. *)
Inductive Attempt : Type :=
| Returned (st : ParserState)
| TypeErrorAt (st : ParserState).

Definition _end_attempt (invert : bool) (st : ParserState) : Attempt :=
  match last (_expected st) with
  | None => TypeErrorAt st
  | Some expected =>
      let stack := removelast (_expected st) in
      match last stack with
      | None => TypeErrorAt (set_expected stack st)
      | Some top =>
          let vs := variants expected in
          if decide (offset top ≠ offset expected)
          then Returned (set_expected stack st)
          else
            let vs := if invert then invert_variant <$> vs else vs in
            let top := {| offset := offset top;
                          variants := variants top ++ vs |} in
            Returned (set_expected (set_top top stack) st)
      end
  end.

Definition _expect (expected : Expectation) (st : ParserState)
  : Exec ParserState :=
  do top <- defined (last (_expected st));
  if _offset st <? offset top then Done st
  else
    let top :=
      if offset top <? _offset st
      then {| offset := _offset st; variants := [] |}
      else top in
    let top := {| offset := offset top;
                  variants := variants top ++ [expected] |} in
    Done (set_expected (set_top top (_expected st)) st).

(** *** Primitive matchers *)

Definition matchAny (st : ParserState) : Result string * ParserState :=
  let off := _offset st in
  if off <? JS.length (input st)
  then (Matched (JS.charAt (input st) off), set_offset (S (_offset st)) st)
  else (FAILED, st).

(** [regexp] stands for the method [regexp.test]. *)
Definition matchClass (regexp : string -> bool) (st : ParserState)
  : Result string * ParserState :=
  let off := _offset st in
  let chr := JS.charAt (input st) off in
  if regexp chr
  then (Matched chr, set_offset (S (_offset st)) st)
  else (FAILED, st).

Definition matchChar (char : string) (charCode : nat) (st : ParserState)
  : Result string * ParserState :=
  if decide (JS.charCodeAt (input st) (_offset st) = Some charCode)
  then (Matched char, set_offset (S (_offset st)) st)
  else (FAILED, st).

Definition matchLiteral (literal : string) (st : ParserState)
  : Result string * ParserState :=
  let len := JS.length literal in
  let txt := JS.substr (input st) (_offset st) len in
  if decide (txt = literal)
  then (Matched literal, set_offset (_offset st + len) st)
  else (FAILED, st).

(** [toLowerCase] stands for the built-in method of strings. *)
Definition matchLiteralIC (toLowerCase : string -> string) (literal : string)
    (st : ParserState) : Result string * ParserState :=
  let len := JS.length literal in
  let txt := JS.substr (input st) (_offset st) len in
  if decide (toLowerCase txt = literal)
  then (Matched txt, set_offset (_offset st + len) st)
  else (FAILED, st).

(** *** Errors and the entry point *)

Definition buildError (st : ParserState) : Exec (SyntaxError.t * ParserState) :=
  do expected <- defined (_expected st !! 0);
  let failPos := offset expected in
  let found :=
    if failPos <? JS.length (input st)
    then Some (JS.charAt (input st) failPos)
    else None in
  do (loc, st') <-
    (if failPos <? JS.length (input st)
     then _computeLocation failPos (failPos + 1) st
     else _computeLocation failPos failPos st);
  do e <- buildStructuredError (variants expected) found loc;
  Done (e, st').

Section Parse.

(** The values a rule function may return. *)
Variable V : Type.

(** A rule function runs on the state and returns a value or [FAILED],
    or throws through [expected] or [error]. *)
Definition RuleFn : Type :=
  ParserState -> Exec (Completion (Result V) * ParserState).

Definition throw_buildError (st : ParserState)
  : Exec (Completion V * ParserState) :=
  do (e, st') <- buildError st;
  Done (Throws e, st').

Definition parse (ruleParseFunc : RuleFn) (st : ParserState)
  : Exec (Completion V * ParserState) :=
  let st := _begin st in
  do (c, st) <- ruleParseFunc st;
  match c with
  | Throws e => Done (Throws e, st)
  | Returns (Matched result) =>
      if decide (_offset st = JS.length (input st))
      then Done (Returns result, st)
      else if _offset st <? JS.length (input st)
      then do st <- _expect EEnd st; throw_buildError st
      else throw_buildError st
  | Returns FAILED => throw_buildError st
  end.

End Parse.
Arguments parse {V} ruleParseFunc st.
Arguments throw_buildError {V} st.

(** * Vocabulary of the properties *)

Section Vocabulary.

Implicit Types (st : ParserState) (top popped : Frame)
  (calls : list (nat * Expectation)) (literal : string) (base : PosDetails)
  (cache : gmap nat PosDetails) (l phrases : list string)
  (es : list Expectation).

(** ** The frame stack *)

(** What [_end] leaves on top of the stack below the popped frame. *)
Definition merged (invert : bool) (top popped : Frame) : Frame :=
  if decide (offset popped = offset top)
  then {| offset := offset top;
          variants := variants top ++
            (if invert then invert_variant <$> variants popped
             else variants popped) |}
  else top.

(** A frame popped at the offset of the frame below it. *)
Definition equal_offsets_state : ParserState :=
  set_expected [ {| offset := 1; variants := [EAny] |};
                 {| offset := 1; variants := [ENot EEnd; EEnd] |} ]
               (set_offset 1 (new_ParserState "ab" None 0 1 1)).

(** Two [_begin] at offset 0, then an advance to offset 2. *)
Definition frame_ahead_state : ParserState :=
  set_offset 2 (_begin (_begin (new_ParserState "ab" None 0 1 1))).

(** ** Registering expectations *)

(** An [_expect] call made after the current offset has moved to [o]. *)
Definition expect_at (st : ParserState) (c : nat * Expectation)
  : Exec ParserState :=
  _expect c.2 (set_offset c.1 st).

Fixpoint expect_calls calls st : Exec ParserState :=
  match calls with
  | [] => Done st
  | c :: calls' => do st' <- expect_at st c; expect_calls calls' st'
  end.

(** The furthest of a starting offset and the offsets of the calls. *)
Fixpoint furthest (o : nat) calls : nat :=
  match calls with
  | [] => o
  | c :: calls' => Nat.max c.1 (furthest o calls')
  end.

(** The expectations registered at offset [m], in registration order. *)
Definition registered_at (m : nat) calls : list Expectation :=
  snd <$> filter (fun c => c.1 = m) calls.

Definition final_frame (top : Frame) calls : Frame :=
  let m := furthest (offset top) calls in
  {| offset := m;
     variants := (if decide (offset top = m) then variants top else [])
                 ++ registered_at m calls |}.

(** A frame begun at offset 5, above the root frame. *)
Definition begun_at_5 : ParserState :=
  _begin (set_offset 5 (_begin (new_ParserState "abcdefgh" None 0 1 1))).

(** ** Primitive matchers *)



(** A lower-casing that turns the unit 0xCC into two units and leaves the
    others alone: the built-in lengthens a text in this way where it turns
    U+0130 into [i] and U+0307. *)
Fixpoint lengthening_lower (s : string) : string :=
  match s with
  | EmptyString => EmptyString
  | String c s' =>
      if decide (nat_of_ascii c = 204)
      then String "i" (String "." (lengthening_lower s'))
      else String c (lengthening_lower s')
  end.

(** A matcher run on [st] either returns a text [t], having moved the
    offset by the length of [t] and nothing else, where [t] is the text
    of the input at the old offset; or it returns [FAILED] and leaves
    the whole state as it was. *)
Definition advances_or_fails
    (m : ParserState -> Result string * ParserState) st : Prop :=
  (exists t,
     m st = (Matched t, set_offset (_offset st + JS.length t) st) /\
     JS.substr (input st) (_offset st) (JS.length t) = t) \/
  m st = (FAILED, st).

Definition fails_at_end
    (m : ParserState -> Result string * ParserState) st : Prop :=
  JS.length (input st) <= _offset st -> m st = (FAILED, st).



(** ** Describing what was found *)

Definition quoted (s : string) : string :=
  String dquote (literalEscape s) +:+ String dquote EmptyString.

(** ** The position cache *)

Definition newline : ascii := "010"%char.

(** The scan as the specification words it: over the characters before
    the queried offset, a newline increments the line and resets the
    column to 1, every other character increments the column. *)
Definition count_char (d : PosDetails) (c : ascii) : PosDetails :=
  if decide (c = newline)
  then {| line := line d + 1; column := 1 |}
  else {| line := line d; column := column d + 1 |}.

Definition linear_scan (input : string) (line column o : nat) : PosDetails :=
  fold_left count_char (take o (list_ascii_of_string input))
            {| line := line; column := column |}.

(** Every cached entry is what the loop computes from index 0, where the
    constructor has put the baseline. *)
Definition cache_sound (input : string) base cache : Prop :=
  cache !! 0 = Some base /\
  forall p d, cache !! p = Some d -> d = scan input p 0 base.

(** The states a parse can pass through, as far as positions go: a
    position query, or any other step, which leaves the input and the
    cache alone ([_begin], [_end], [_expect], the matchers, a move of the
    offset or of the mark). *)
Inductive reachable (init : ParserState) : ParserState -> Prop :=
| reachable_init : reachable init init
| reachable_query st pos d st' :
    reachable init st ->
    _computePosDetails pos st = Done (d, st') ->
    reachable init st'
| reachable_step st st' :
    reachable init st ->
    input st' = input st -> _cache st' = _cache st ->
    reachable init st'.

Definition two_lines : string := "ab" +:+ String newline "cd".

Definition queried_at_5 : ParserState :=
  set_cache (<[5 := {| line := 2; column := 3 |}]>
               (_cache (new_ParserState two_lines None 0 1 1)))
            (new_ParserState two_lines None 0 1 1).

(** ** Describing what was expected *)

(** The strict order on phrases: lexicographic by code units. *)
Definition str_lt (a b : string) : Prop := JS.str_le a b /\ a <> b.

(** The result of the in-place loop, as a function on lists. *)
Fixpoint uniq l : list string :=
  match l with
  | [] => []
  | x :: l' =>
      match l' with
      | [] => [x]
      | y :: _ => if decide (x = y) then uniq l' else x :: uniq l'
      end
  end.

(** The join of the phrases, as the specification words it. *)
Definition join_phrases phrases : string :=
  match phrases with
  | [] => EmptyString
  | [a] => a
  | [a; b] => a +:+ " or " +:+ b
  | _ => JS.join ", " (removelast phrases) +:+ ", or "
           +:+ default EmptyString (last phrases)
  end.

(** The phrases of a sequence of expectations: rendered, sorted, without
    duplicates. *)
Definition phrases_of es : list string :=
  uniq (JS.sort (describeExpectation <$> es)).

(** ** Rule functions *)

(** A rule function for the sequence of the literals [a] and [c]: each
    literal that does not match registers its expectation, and the rule
    fails with the offset back at its start. *)
Definition rule_a_then_c : RuleFn string := fun st =>
  let start := _offset st in
  let '(a, st) := matchLiteral "a" st in
  match a with
  | FAILED =>
      do st <- _expect (ELiteral "a") st;
      Done (Returns FAILED, st)
  | Matched a =>
      let '(c, st) := matchLiteral "c" st in
      match c with
      | FAILED =>
          do st <- _expect (ELiteral "c") st;
          Done (Returns FAILED, set_offset start st)
      | Matched c => Done (Returns (Matched (a +:+ c)), st)
      end
  end.

(** A rule function that looks two characters ahead, registers an
    expectation there, steps back and matches one character. *)
Definition rule_with_lookahead : RuleFn string := fun st =>
  let start := _offset st in
  let '(_, st) := matchAny st in
  let '(_, st) := matchAny st in
  do st <- _expect (ELiteral "x") st;
  let '(a, st) := matchAny (set_offset start st) in
  Done (Returns a, st).

(** A rule function for the literal [a] followed by the optional sequence
    of the literals [b] and [c]: a literal that does not match registers
    its expectation; the optional part that fails puts the offset back
    behind the [a] and the rule returns the [a] alone. *)
Definition rule_a_optional_bc : RuleFn string := fun st =>
  let '(a, st) := matchLiteral "a" st in
  match a with
  | FAILED =>
      do st <- _expect (ELiteral "a") st;
      Done (Returns FAILED, st)
  | Matched a =>
      let start := _offset st in
      let '(b, st) := matchLiteral "b" st in
      match b with
      | FAILED =>
          do st <- _expect (ELiteral "b") st;
          Done (Returns (Matched a), st)
      | Matched b =>
          let '(c, st) := matchLiteral "c" st in
          match c with
          | FAILED =>
              do st <- _expect (ELiteral "c") st;
              Done (Returns (Matched a), set_offset start st)
          | Matched c => Done (Returns (Matched (a +:+ b +:+ c)), st)
          end
      end
  end.

(** A rule function that fails and registers no expectation. *)
Definition rule_fails_silently : RuleFn string := fun st =>
  Done (Returns FAILED, st).

End Vocabulary.


(** ** The default tracer *)

Module DefaultTracer.

(** [s.repeat(count)]: a negative count is a [RangeError], here [None]. *)
Definition repeat (s : string) (count : Z) : option string :=
  if (count <? 0)%Z then None
  else Some (Nat.iter (Z.to_nat count) (String.append s) EmptyString).

(** A number in front of a string: its decimal digits. *)
Definition number (n : nat) : string := pretty n.

Definition pad (s : string) (length : Z) : option string :=
  String.append s <$> repeat " " (length - Z.of_nat (JS.length s)).

Definition toString1 (pos : Position) : string :=
  number (p_line pos) +:+ ":" +:+ number (p_column pos).

Definition toString2 (location : Location) : string :=
  toString1 (start location) +:+ "-" +:+ toString1 (end_ location).

Record Event : Type := {
  type : string;
  rule : string;
  location : Location
}.

(** The line that [log] hands to [console.log]. *)
Definition log_line (event : Event) (indentLevel : Z) : option string :=
  padded ← pad (type event) 10;
  indent ← repeat "  " indentLevel;
  Some (toString2 (location event) +:+ " " +:+ padded +:+ " "
          +:+ indent +:+ rule event).

(** The tracer object, with the lines written to the console so far. *)
Record t : Type := {
  indentLevel : Z;
  console : list string
}.

Definition new : t := {| indentLevel := 0; console := [] |}.

Inductive Outcome : Type :=
| Traced
| RangeError
| InvalidEvent (message : string).

Definition log (event : Event) (level : Z) (tracer : t) : Outcome * t :=
  match log_line event level with
  | Some l =>
      (Traced, {| indentLevel := indentLevel tracer;
                  console := console tracer ++ [l] |})
  | None => (RangeError, tracer)
  end.

Definition set_level (level : Z) (tracer : t) : t :=
  {| indentLevel := level; console := console tracer |}.

(** [trace(event)]: [indentLevel++] hands the old level to [log],
    [--indentLevel] the new one; the field is written before [log] runs. *)
Definition trace (event : Event) (tracer : t) : Outcome * t :=
  if decide (type event = "rule.enter") then
    log event (indentLevel tracer)
        (set_level (indentLevel tracer + 1) tracer)
  else if decide (type event = "rule.match") then
    log event (indentLevel tracer - 1)
        (set_level (indentLevel tracer - 1) tracer)
  else if decide (type event = "rule.fail") then
    log event (indentLevel tracer - 1)
        (set_level (indentLevel tracer - 1) tracer)
  else (InvalidEvent ("Invalid event type: " +:+ type event +:+ "."), tracer).

(** Tracing a sequence of events until one of them throws. *)
Fixpoint trace_all (events : list Event) (tracer : t) : Outcome * t :=
  match events with
  | [] => (Traced, tracer)
  | event :: events' =>
      match trace event tracer with
      | (Traced, tracer') => trace_all events' tracer'
      | failure => failure
      end
  end.

End DefaultTracer.
(** * Vocabulary of the further properties *)

(** ** Escaping *)

(** The code units that the escape functions replace by [\xHH] or by a
    named escape: 0x00-0x1F and 0x7F-0x9F. *)
Definition is_control (c : ascii) : bool :=
  in_range 0 31 c || in_range 127 159 c.

Fixpoint all_units (p : ascii -> bool) (s : string) : bool :=
  match s with
  | EmptyString => true
  | String c s' => p c && all_units p s'
  end.

(** The value of an upper-case hexadecimal digit. *)
Definition hex_value (c : ascii) : nat :=
  let n := nat_of_ascii c in
  if n <? 58 then n - 48 else n - 55.

(** Reading back the first escaped unit of a text: the unit and the rest.
    [extra] lists the punctuation that is escaped by a backslash in front
    of itself. *)
Definition read_escaped (extra : list ascii) (s : string)
  : option (ascii * string) :=
  match s with
  | EmptyString => None
  | String c r =>
      if Ascii.eqb c "\" then
        match r with
        | EmptyString => None
        | String k r' =>
            if Ascii.eqb k "0" then Some (ascii_of_nat 0, r')
            else if Ascii.eqb k "t" then Some (ascii_of_nat 9, r')
            else if Ascii.eqb k "n" then Some (ascii_of_nat 10, r')
            else if Ascii.eqb k "r" then Some (ascii_of_nat 13, r')
            else if Ascii.eqb k "x" then
              match r' with
              | String h (String l r'') =>
                  Some (ascii_of_nat (16 * hex_value h + hex_value l), r'')
              | _ => None
              end
            else if bool_decide (k ∈ "\"%char :: extra) then Some (k, r')
            else None
        end
      else Some (c, r)
  end.

(** Reading back a whole text, one escaped unit per turn; [fuel] bounds the
    number of turns. *)
Fixpoint unescape (extra : list ascii) (fuel : nat) (s : string)
  : option string :=
  match s with
  | EmptyString => Some EmptyString
  | _ =>
      match fuel with
      | 0 => None
      | S fuel' =>
          match read_escaped extra s with
          | Some (c, r) => String c <$> unescape extra fuel' r
          | None => None
          end
      end
  end.

Definition literal_punctuation : list ascii := [dquote].

Definition class_punctuation : list ascii := ["]"%char; "^"%char; "-"%char].

(** A text without any unit that [literalEscape] replaces. *)
Definition plain_literal_unit (c : ascii) : bool :=
  negb (is_control c) && negb (is_unit 92 c) && negb (is_unit 34 c).

(** ** The frame protocol *)

(** The calls a rule body makes on the frames, and a move of the offset. *)
Inductive FrameOp : Type :=
| OpBegin
| OpEnd (invert : bool)
| OpExpect (e : Expectation)
| OpMove (o : nat).

Definition run_op (op : FrameOp) (st : ParserState) : Exec ParserState :=
  match op with
  | OpBegin => Done (_begin st)
  | OpEnd invert => _end invert st
  | OpExpect e => _expect e st
  | OpMove o => Done (set_offset o st)
  end.

Fixpoint run_ops (ops : list FrameOp) (st : ParserState) : Exec ParserState :=
  match ops with
  | [] => Done st
  | op :: ops' => do st' <- run_op op st; run_ops ops' st'
  end.

(** Runs in which every [_begin] is closed by an [_end] of its own. *)
Inductive balanced : list FrameOp -> Prop :=
| balanced_nil : balanced []
| balanced_expect e ops : balanced ops -> balanced (OpExpect e :: ops)
| balanced_move o ops : balanced ops -> balanced (OpMove o :: ops)
| balanced_nest invert inner ops :
    balanced inner -> balanced ops ->
    balanced (OpBegin :: inner ++ OpEnd invert :: ops).

(** An expectation negated twice at its head. *)
Definition double_not (e : Expectation) : bool :=
  match e with
  | ENot (ENot _) => true
  | _ => false
  end.

(** What a step may do to the top frame: raise its offset, or keep the
    offset and add variants after the ones it holds. *)
Definition extends (top top' : Frame) : Prop :=
  offset top <= offset top' /\
  (offset top' = offset top -> variants top `prefix_of` variants top').

(** A root frame and, above it, a frame that has seen calls at offsets 2
    and 3. *)
Definition rule_body : list FrameOp :=
  [OpExpect EAny; OpBegin; OpMove 2; OpExpect (ELiteral "a");
   OpBegin; OpMove 3; OpExpect EEnd; OpEnd true; OpEnd false; OpMove 0].

(** Three frames at one offset, the upper two as two nested negative
    look-aheads leave them. *)
Definition nested_lookahead_state : ParserState :=
  set_expected [ {| offset := 1; variants := [EAny] |};
                 {| offset := 1; variants := [ERule "r"] |};
                 {| offset := 1; variants := [ELiteral "a"; ENot EEnd] |} ]
               (set_offset 1 (new_ParserState "ab" None 0 1 1)).

(** ** Positions *)

(** The characters of the input before offset [o]. *)
Definition chars_before (inp : string) (o : nat) : list ascii :=
  take o (list_ascii_of_string inp).

Definition newlines (chars : list ascii) : nat :=
  length (filter (fun c => c = newline) chars).

(** An input of three lines. *)
Definition three_lines : string :=
  "ab" +:+ String newline ("cde" +:+ String newline "f").

(** ** Errors *)

(** The position of offset [p], as the loop computes it from index 0. *)
Definition position_at (inp : string) (base : PosDetails) (p : nat) : Position :=
  {| p_offset := p;
     p_line := line (scan inp p 0 base);
     p_column := column (scan inp p 0 base) |}.

Definition span (source : option string) (inp : string) (base : PosDetails)
    (from to : nat) : Location :=
  {| source := source;
     start := position_at inp base from;
     end_ := position_at inp base to |}.

(** What a call of [_expect] at the offset [o] makes of the top frame:
    nothing when [o] is behind the frame's offset; the expectation alone
    when [o] is beyond it; one more variant when the two are equal. *)
Definition registered (e : Expectation) (o : nat) (top : Frame) : Frame :=
  if o <? offset top then top
  else {| offset := o;
          variants := (if offset top <? o then [] else variants top) ++ [e] |}.

(** The error [e] is the one built from the frame [root] in the state
    [st]: the frame's variants, the character at the frame's offset
    ([null] at or past the end of the input), the location of that
    character (empty at or past the end) and the message that
    [buildMessage] makes of the two. *)
Definition built_from (base : PosDetails) (st : ParserState) (root : Frame)
    (e : SyntaxError.t) : Prop :=
  let failPos := offset root in
  let inside := failPos <? JS.length (input st) in
  SyntaxError.expected e = Some (variants root) /\
  SyntaxError.found e
  = (if inside then Some (JS.charAt (input st) failPos) else None) /\
  SyntaxError.location e
  = span (_source st) (input st) base failPos
         (if inside then failPos + 1 else failPos) /\
  SyntaxError.buildMessage (variants root) (SyntaxError.found e)
  = Done (SyntaxError.message e).

(** The message of an error with at least one expectation. *)
Definition message_of (expected : list Expectation) (found : option string)
  : string :=
  "Expected " +:+ join_phrases (phrases_of expected) +:+ " but "
    +:+ describeFound found +:+ " found.".

(** A rule function that matches one character and returns it. *)
Definition rule_any : RuleFn string := fun st =>
  let '(a, st) := matchAny st in
  match a with
  | FAILED => do st <- _expect EAny st; Done (Returns FAILED, st)
  | Matched a => Done (Returns (Matched a), st)
  end.

(** The state [parse] leaves to [buildError] for the input [ab] and the
    rule of the literals [a] and [c]. *)
Definition failed_at_1 : ParserState :=
  set_expected [ {| offset := 1; variants := [ELiteral "c"] |} ]
               (new_ParserState "ab" None 0 1 1).

(** A state in the middle of a match: mark at 1, offset at 3. *)
Definition matched_1_3 : ParserState :=
  set_offset 3 (set_mark 1 (_begin (new_ParserState "abcd" None 0 1 1))).

(** ** Matchers *)

(** The five matchers on arguments that fit each other: a class that
    rejects the empty text, a character with its own code, any literal,
    and for [matchLiteralIC] the lower-casing in use. *)
Inductive Matcher : Type :=
| MAny
| MClass (regexp : string -> bool) (rejects_empty : regexp EmptyString = false)
| MChar (c : ascii)
| MLiteral (literal : string)
| MLiteralIC (toLowerCase : string -> string) (literal : string).

Definition run_matcher (m : Matcher) (st : ParserState)
  : Result string * ParserState :=
  match m with
  | MAny => matchAny st
  | MClass regexp _ => matchClass regexp st
  | MChar c => matchChar (String c EmptyString) (nat_of_ascii c) st
  | MLiteral literal => matchLiteral literal st
  | MLiteralIC toLowerCase literal => matchLiteralIC toLowerCase literal st
  end.

(** The number of code units by which a matcher that succeeds moves the
    offset: [++this._offset] or [this._offset += len]. *)
Definition consumed (m : Matcher) : nat :=
  match m with
  | MAny => 1
  | MClass _ _ => 1
  | MChar _ => 1
  | MLiteral literal => JS.length literal
  | MLiteralIC _ literal => JS.length literal
  end.

(** The matchers that compare the text of the input itself. *)
Definition case_sensitive (m : Matcher) : Prop :=
  match m with
  | MLiteralIC _ _ => False
  | _ => True
  end.

(** The test of a pattern that accepts every character. *)
Definition any_character (chr : string) : bool :=
  match chr with
  | EmptyString => false
  | String _ _ => true
  end.

(** The two literals of a sequence, matched one after the other; the offset
    goes back when the second one fails. *)
Definition match_in_sequence (a b : string) (st : ParserState)
  : Result string * ParserState :=
  match matchLiteral a st with
  | (Matched ta, st1) =>
      match matchLiteral b st1 with
      | (Matched tb, st2) => (Matched (ta +:+ tb), st2)
      | (FAILED, _) => (FAILED, st)
      end
  | (FAILED, _) => (FAILED, st)
  end.

(** ** Traces *)

Definition is_enter (event : DefaultTracer.Event) : Prop :=
  DefaultTracer.type event = "rule.enter".

Definition is_leave (event : DefaultTracer.Event) : Prop :=
  DefaultTracer.type event = "rule.match" \/
  DefaultTracer.type event = "rule.fail".

(** The line of an event at a level that is not negative. *)
Definition line_at (event : DefaultTracer.Event) (level : nat) : string :=
  default EmptyString (DefaultTracer.log_line event (Z.of_nat level)).

(** The events of nested rule calls, each entered and left once, with the
    lines they are to print from a given level: a call prints its two
    lines at its own level and the calls inside it one level deeper. *)
Inductive nested : nat -> list DefaultTracer.Event -> list string -> Prop :=
| nested_nil level : nested level [] []
| nested_call level enter inner leave rest lines_inner lines_rest :
    is_enter enter -> is_leave leave ->
    nested (S level) inner lines_inner ->
    nested level rest lines_rest ->
    nested level (enter :: inner ++ leave :: rest)
           (line_at enter level :: lines_inner
              ++ line_at leave level :: lines_rest).

Definition here (o : nat) : Location :=
  {| source := None;
     start := {| p_offset := o; p_line := 1; p_column := o + 1 |};
     end_ := {| p_offset := o; p_line := 1; p_column := o + 1 |} |}.

Definition event_of (type rule : string) (o : nat) : DefaultTracer.Event :=
  {| DefaultTracer.type := type; DefaultTracer.rule := rule;
     DefaultTracer.location := here o |}.

Definition spaces (n : nat) : string := Nat.iter n (String " ") EmptyString.

(** A call of [a] that matches around a call of [b] that fails. *)
Definition b_inside_a : list DefaultTracer.Event :=
  [event_of "rule.enter" "a" 0; event_of "rule.enter" "b" 1;
   event_of "rule.fail" "b" 1; event_of "rule.match" "a" 2].

(** * Properties *)

(** ** The frame stack *)

Section FrameStack.

Implicit Types (st : ParserState) (rest : list Frame) (top popped : Frame).

Lemma set_top_snoc f rest top : set_top f (rest ++ [top]) = rest ++ [f].
Proof.
  unfold set_top. rewrite length_app. simpl.
  replace (length rest + 1 - 1) with (length rest + 0) by lia.
  by rewrite insert_app_r.
Qed.

Lemma removelast_snoc rest top : removelast (rest ++ [top]) = rest.
Proof. apply removelast_last. Qed.

Lemma _end_run invert st rest top popped :
  _expected st = rest ++ [top; popped] ->
  _end invert st = Done (set_expected (rest ++ [merged invert top popped]) st).
Proof.
  intros Hst. unfold _end, merged.
  replace (rest ++ [top; popped]) with ((rest ++ [top]) ++ [popped]) in Hst
    by (by rewrite <- app_assoc).
  rewrite Hst, last_snoc. simpl.
  rewrite removelast_snoc, last_snoc. simpl.
  destruct (decide (offset top ≠ offset popped)) as [Hne | Heq].
  - rewrite decide_False by congruence. done.
  - apply dec_stable in Heq. rewrite decide_True by congruence.
    by rewrite set_top_snoc.
Qed.

(** C1, as amended.  With the popped frame [popped] and the frame [top]
    below it, [_end] merges the variants of [popped] into [top] exactly
    when the two recorded offsets are equal; with [invert] each merged
    variant is wrapped in [ENot], or unwrapped when it is an [ENot]
    already; when the offsets differ, in either direction, the variants
    of [popped] are dropped and [top] stays as it was. *)
Theorem _end_merges_on_equal_offsets invert st rest top popped :
  _expected st = rest ++ [top; popped] ->
  exists top',
    _end invert st = Done (set_expected (rest ++ [top']) st) /\
    (offset popped = offset top ->
       top' = {| offset := offset top;
                 variants := variants top ++
                   (if invert then invert_variant <$> variants popped
                    else variants popped) |}) /\
    (offset popped <> offset top -> top' = top) /\
    (forall e, invert_variant (ENot e) = e) /\
    (forall e, (forall e', e <> ENot e') -> invert_variant e = ENot e).
Proof.
  intros Hst. exists (merged invert top popped).
  split; [by apply _end_run |]. unfold merged.
  repeat split.
  - intros Heq. by rewrite decide_True.
  - intros Hne. by rewrite decide_False.
  - intros e Hnot. destruct e; try reflexivity. by destruct (Hnot e).
Qed.

Lemma _end_merges_on_equal_offsets_witness :
  exists top',
    _end true equal_offsets_state
    = Done (set_expected ([] ++ [top']) equal_offsets_state) /\
    variants top' = [EAny; EEnd; ENot EEnd].
Proof.
  destruct (_end_merges_on_equal_offsets true equal_offsets_state
              [] {| offset := 1; variants := [EAny] |}
              {| offset := 1; variants := [ENot EEnd; EEnd] |} eq_refl)
    as (top' & Hrun & Heq & _).
  exists top'. split; [exact Hrun |].
  rewrite (Heq eq_refl). reflexivity.
Defined.

(** C1, as stated, fails: a popped frame whose offset is ahead of the
    frame below is not merged.  The state is reached by two [_begin] at
    offset 0, an advance to offset 2 and one [_expect]. *)
Lemma _end_drops_frame_ahead :
  exists st,
    _expect EAny frame_ahead_state = Done st /\
    _expected st = [ {| offset := 0; variants := [] |};
                     {| offset := 2; variants := [EAny] |} ] /\
    _end false st
    = Done (set_expected [ {| offset := 0; variants := [] |} ] st).
Proof. eexists. repeat split. Qed.

End FrameStack.

(** ** Registering expectations *)

Section Expect.

Implicit Types (st : ParserState) (rest : list Frame) (top : Frame)
  (calls : list (nat * Expectation)).

Lemma registered_at_cons m o e calls :
  registered_at m ((o, e) :: calls)
  = if decide (o = m) then e :: registered_at m calls
    else registered_at m calls.
Proof.
  unfold registered_at. destruct (decide (o = m)).
  - by rewrite filter_cons_True.
  - by rewrite filter_cons_False.
Qed.

Lemma furthest_ge o calls : o <= furthest o calls.
Proof. induction calls as [| c calls IH]; simpl; lia. Qed.

Lemma furthest_mono o o' calls :
  o <= o' -> furthest o calls <= furthest o' calls.
Proof. intros H. induction calls as [| c calls IH]; simpl; lia. Qed.

Lemma _expect_run e st rest top :
  _expected st = rest ++ [top] ->
  _expect e st =
    Done (if _offset st <? offset top then st
          else set_expected
                 (rest ++ [ {| offset := Nat.max (offset top) (_offset st);
                               variants :=
                                 (if offset top <? _offset st then []
                                  else variants top) ++ [e] |} ]) st).
Proof.
  intros Hst. unfold _expect. rewrite Hst, last_snoc. simpl.
  destruct (_offset st <? offset top) eqn:Hlt; [done |].
  apply Nat.ltb_ge in Hlt. rewrite set_top_snoc.
  destruct (offset top <? _offset st) eqn:Hgt; simpl.
  - apply Nat.ltb_lt in Hgt. by rewrite Nat.max_r by lia.
  - apply Nat.ltb_ge in Hgt. by rewrite Nat.max_l by lia.
Qed.

Lemma expect_calls_run calls : forall st rest top,
  _expected st = rest ++ [top] ->
  exists st',
    expect_calls calls st = Done st' /\
    _expected st' = rest ++ [final_frame top calls] /\
    input st' = input st /\ _mark st' = _mark st /\
    _cache st' = _cache st /\ _source st' = _source st.
Proof.
  induction calls as [| [o e] calls IH]; intros st rest top Hst.
  - exists st. unfold final_frame, registered_at. simpl.
    rewrite decide_True by done. rewrite app_nil_r.
    by destruct top.
  - cbn [expect_calls]. unfold expect_at. cbn [fst snd].
    rewrite (_expect_run e (set_offset o st) rest top Hst).
    cbn [bindE _offset set_offset].
    pose proof (furthest_ge (offset top) calls) as Hge.
    destruct (o <? offset top) eqn:Hlt.
    + apply Nat.ltb_lt in Hlt.
      destruct (IH (set_offset o st) rest top Hst)
        as (st' & Hrun & Hfin & Hi & Hm & Hc & Hs).
      exists st'. split; [done |]. split; [| done].
      rewrite Hfin. do 2 f_equal.
      unfold final_frame. cbn [furthest fst].
      rewrite registered_at_cons.
      rewrite Nat.max_r by lia.
      rewrite (decide_False (P := o = _)) by lia. done.
    + apply Nat.ltb_ge in Hlt.
      set (top1 := {| offset := Nat.max (offset top) o;
                      variants := (if offset top <? o then []
                                   else variants top) ++ [e] |}).
      destruct (IH (set_expected (rest ++ [top1]) (set_offset o st))
                   rest top1 eq_refl)
        as (st' & Hrun & Hfin & Hi & Hm & Hc & Hs).
      exists st'. split; [done |]. split; [| done].
      rewrite Hfin. do 2 f_equal.
      unfold final_frame. cbn [furthest fst offset variants top1].
      rewrite registered_at_cons.
      rewrite (Nat.max_r (offset top) o) by lia.
      assert (Hm' : furthest o calls
                    = Nat.max o (furthest (offset top) calls)).
      { clear -Hlt. induction calls as [| c calls IH]; simpl; lia. }
      rewrite <- Hm'.
      pose proof (furthest_ge o calls) as Hge'.
      f_equal.
      destruct (decide (o = furthest o calls)) as [Heq | Hne].
      * destruct (offset top <? o) eqn:Hgt.
        -- apply Nat.ltb_lt in Hgt. rewrite decide_False by lia. done.
        -- apply Nat.ltb_ge in Hgt. rewrite decide_True by lia.
           by rewrite <- app_assoc.
      * rewrite decide_False by lia. done.
Qed.

(** C2, as amended.  Over any run of [_expect] calls at arbitrary
    offsets, on one top frame, the frame ends with the furthest of its
    own earlier offset and the offsets of the calls; its variants are
    the ones it held already, if its earlier offset is that furthest
    offset, followed by exactly the expectations registered at that
    offset, in registration order.  The frames below and the rest of the
    state are untouched. *)
Theorem expect_calls_keep_furthest calls st rest top :
  _expected st = rest ++ [top] ->
  exists st' top',
    expect_calls calls st = Done st' /\
    _expected st' = rest ++ [top'] /\
    offset top' = furthest (offset top) calls /\
    variants top' =
      (if decide (offset top = furthest (offset top) calls)
       then variants top else [])
      ++ registered_at (furthest (offset top) calls) calls /\
    input st' = input st /\ _mark st' = _mark st /\ _cache st' = _cache st.
Proof.
  intros Hst.
  destruct (expect_calls_run calls st rest top Hst)
    as (st' & Hrun & Hfin & Hi & Hm & Hc & _).
  exists st', (final_frame top calls). by repeat split.
Qed.

Lemma expect_calls_keep_furthest_witness :
  exists st' top',
    expect_calls [(3, EAny); (7, ERule "r"); (6, EEnd); (7, EAny)] begun_at_5
      = Done st' /\
    _expected st' = [ {| offset := 0; variants := [] |} ] ++ [top'] /\
    offset top' = 7 /\
    variants top' = [ERule "r"; EAny].
Proof.
  destruct (expect_calls_keep_furthest
              [(3, EAny); (7, ERule "r"); (6, EEnd); (7, EAny)] begun_at_5
              [ {| offset := 0; variants := [] |} ]
              {| offset := 5; variants := [] |} eq_refl)
    as (st' & top' & Hrun & Hstack & Hoff & Hvar & _).
  exists st', top'. repeat split; [exact Hrun | exact Hstack | exact Hoff |].
  rewrite Hvar. reflexivity.
Defined.

(** When the frame starts without variants, as [_begin] leaves it, and
    some call is made at or beyond the frame's offset, the furthest offset
    is the furthest offset of the calls alone. *)
Lemma furthest_of_calls o calls :
  (exists c, c ∈ calls /\ o <= c.1) -> furthest o calls = furthest 0 calls.
Proof.
  intros (c & Hin & Hle).
  induction calls as [| c' calls IH]; [by apply elem_of_nil in Hin |].
  apply elem_of_cons in Hin as [-> | Hin]; simpl.
  - pose proof (furthest_mono 0 o calls). 
    assert (furthest o calls <= Nat.max o (furthest 0 calls)).
    { clear. induction calls as [| c calls IH]; simpl; lia. }
    lia.
  - rewrite IH by done. done.
Qed.

Lemma expect_calls_fresh_frame calls st rest top :
  _expected st = rest ++ [top] ->
  variants top = [] ->
  (exists c, c ∈ calls /\ offset top <= c.1) ->
  exists st',
    expect_calls calls st = Done st' /\
    _expected st' =
      rest ++ [ {| offset := furthest 0 calls;
                   variants := registered_at (furthest 0 calls) calls |} ].
Proof.
  intros Hst Hnil Hcall.
  destruct (expect_calls_run calls st rest top Hst) as (st' & Hrun & Hfin & _).
  exists st'. split; [done |]. rewrite Hfin. unfold final_frame.
  rewrite (furthest_of_calls _ _ Hcall), Hnil.
  by destruct (decide _).
Qed.

(** C2, as stated, fails: a call made behind the frame's own offset is
    ignored, so the frame keeps its offset 5 and no variant, where the
    furthest offset of the calls is 3 and one expectation was registered
    there. *)
Lemma expect_behind_frame_is_ignored :
  furthest 0 [(3, EAny)] = 3 /\
  registered_at 3 [(3, EAny)] = [EAny] /\
  exists st',
    expect_calls [(3, EAny)] begun_at_5 = Done st' /\
    _expected st' = [ {| offset := 0; variants := [] |};
                      {| offset := 5; variants := [] |} ].
Proof. repeat split. eexists. split; reflexivity. Qed.

End Expect.

(** ** Primitive matchers *)

Section Matchers.

Implicit Types (st : ParserState) (s literal : string).

Lemma get_Some_length s : forall p c, String.get p s = Some c -> p < JS.length s.
Proof.
  unfold JS.length.
  induction s as [| a s IH]; intros [| p] c H; simpl in *;
    try discriminate; try lia.
  apply IH in H. lia.
Qed.

Lemma get_None_length s : forall p, JS.length s <= p -> String.get p s = None.
Proof.
  unfold JS.length.
  induction s as [| a s IH]; intros [| p] H; simpl in *;
    try reflexivity; try lia.
  apply IH. lia.
Qed.

Lemma get_lt_Some s : forall p,
  p < JS.length s -> exists c, String.get p s = Some c.
Proof.
  unfold JS.length.
  induction s as [| a s IH]; intros [| p] H; simpl in *; try lia; eauto.
  apply IH. lia.
Qed.

Lemma substr_one s : forall p c,
  String.get p s = Some c -> JS.substr s p 1 = String c EmptyString.
Proof.
  unfold JS.substr.
  induction s as [| a s IH]; intros [| p] c H; simpl in *; try discriminate.
  - injection H as ->. by destruct s.
  - by apply IH.
Qed.

Lemma substr_length s : forall from len,
  JS.length (JS.substr s from len) = Nat.min len (JS.length s - from).
Proof.
  unfold JS.substr, JS.length.
  induction s as [| a s IH]; intros [| from] [| len]; simpl;
    try reflexivity; try (rewrite IH; simpl; lia).
Qed.

(** The text left in the input at the current offset is shorter than a
    non-empty literal once the offset is at or past the end. *)
Lemma substr_at_end s from len :
  JS.length s <= from -> JS.substr s from len = EmptyString.
Proof.
  intros H. pose proof (substr_length s from len) as Hl.
  replace (JS.length s - from) with 0 in Hl by lia.
  rewrite Nat.min_0_r in Hl.
  by destruct (JS.substr s from len).
Qed.

(** The two ways [matchLiteralIC] ends, for every lower-casing. *)
Lemma matchLiteralIC_run toLowerCase literal st :
  let txt := JS.substr (input st) (_offset st) (JS.length literal) in
  (toLowerCase txt = literal /\
   matchLiteralIC toLowerCase literal st
   = (Matched txt, set_offset (_offset st + JS.length literal) st)) \/
  (toLowerCase txt <> literal /\
   matchLiteralIC toLowerCase literal st = (FAILED, st)).
Proof.
  cbv zeta. unfold matchLiteralIC.
  destruct (decide _) as [Heq | Hne]; [by left | by right].
Qed.




(** With a lower-casing that lengthens a text, a match returns a text
    shorter than the pattern and puts the offset past the end of the
    input. *)
Example matchLiteralIC_shorter_text :
  let inp := String (ascii_of_nat 204) EmptyString in
  let st := new_ParserState inp None 0 1 1 in
  lengthening_lower "i." = "i." /\
  matchLiteralIC lengthening_lower "i." st = (Matched inp, set_offset 2 st) /\
  JS.length (input st) = 1.
Proof. repeat split; reflexivity. Qed.

Lemma matchAny_ok st :
  advances_or_fails matchAny st /\ fails_at_end matchAny st.
Proof.
  unfold advances_or_fails, fails_at_end, matchAny, JS.charAt. split.
  - destruct (_offset st <? JS.length (input st)) eqn:Hlt; [| by right].
    left. destruct (String.get _ _) as [c |] eqn:Hget.
    + exists (String c EmptyString). simpl.
      rewrite Nat.add_1_r. split; [done |]. by apply substr_one.
    + apply Nat.ltb_lt in Hlt.
      destruct (get_lt_Some _ _ Hlt) as [c Hc]. congruence.
  - intros Hend. apply Nat.ltb_ge in Hend. by rewrite Hend.
Qed.

Lemma matchClass_ok regexp st :
  regexp EmptyString = false ->
  advances_or_fails (matchClass regexp) st /\
  fails_at_end (matchClass regexp) st.
Proof.
  intros Hempty.
  unfold advances_or_fails, fails_at_end, matchClass, JS.charAt. split.
  - destruct (String.get _ _) as [c |] eqn:Hget.
    + destruct (regexp (String c EmptyString)); [| by right].
      left. exists (String c EmptyString). simpl.
      rewrite Nat.add_1_r. split; [done |]. by apply substr_one.
    + rewrite Hempty. by right.
  - intros Hend. rewrite get_None_length by done. by rewrite Hempty.
Qed.

Lemma matchChar_ok c st :
  advances_or_fails (matchChar (String c EmptyString) (nat_of_ascii c)) st.
Proof.
  unfold advances_or_fails, matchChar, JS.charCodeAt.
  destruct (decide _) as [Heq | Hne]; [| by right].
  left. exists (String c EmptyString). simpl.
  rewrite Nat.add_1_r. split; [done |].
  destruct (String.get _ _) as [c' |] eqn:Hget; [| done].
  simpl in Heq. injection Heq as Heq.
  apply (f_equal ascii_of_nat) in Heq.
  rewrite !ascii_nat_embedding in Heq. subst c'.
  by apply substr_one.
Qed.


Lemma matchLiteral_ok literal st :
  advances_or_fails (matchLiteral literal) st /\
  (literal <> EmptyString -> fails_at_end (matchLiteral literal) st).
Proof.
  unfold advances_or_fails, fails_at_end, matchLiteral. split.
  - destruct (decide _) as [Heq | Hne]; [| by right].
    left. by exists literal.
  - intros Hne Hend. rewrite substr_at_end by done.
    by rewrite decide_False.
Qed.





End Matchers.

(** ** Describing what was found *)

Section Found.

(** C9, as amended.  [describeFound] returns the quoted, escaped text
    for every non-empty string, and the phrase [end of input] exactly
    when the value is [null] or the empty string. *)
Theorem describeFound_cases (found : option string) :
  (forall s, found = Some s -> s <> EmptyString ->
     describeFound found = quoted s) /\
  (describeFound found = "end of input" <->
     found = None \/ found = Some EmptyString).
Proof.
  split.
  - intros s -> Hne. by destruct s.
  - destruct found as [[| c s] |]; simpl; split; intros H;
      try done; try by (left + right).
    + destruct H as [H | H]; discriminate.
Qed.

Lemma describeFound_cases_witness :
  describeFound (Some "b") = quoted "b" /\
  describeFound None = "end of input".
Proof.
  destruct (describeFound_cases (Some "b")) as [Hq _].
  destruct (describeFound_cases None) as [_ Hend].
  split.
  - apply (Hq "b" eq_refl). discriminate.
  - apply Hend. left. reflexivity.
Defined.

(** C9, as stated, fails on the empty string, a string that is not
    [null]: it is described as the end of the input.  The empty string is
    what [expected] passes when nothing has been consumed since the
    mark. *)
Lemma describeFound_empty_string :
  describeFound (Some EmptyString) = "end of input" /\
  describeFound (Some EmptyString) <> quoted EmptyString /\
  text (new_ParserState "ab" None 0 1 1) = EmptyString.
Proof. repeat split. discriminate. Qed.

End Found.

(** ** The position cache *)

Section PositionCache.

Implicit Types (st : ParserState) (cache : gmap nat PosDetails)
  (d base : PosDetails).

Lemma scan_split input n m : forall p d,
  scan input (n + m) p d = scan input m (p + n) (scan input n p d).
Proof.
  induction n as [| n IH]; intros p d; simpl.
  - by rewrite Nat.add_0_r.
  - rewrite IH. f_equal. lia.
Qed.

Lemma nearest_below_found cache base pos :
  cache !! 0 = Some base -> 0 < pos ->
  exists p d, nearest_below cache pos = Done (p, d) /\
              p < pos /\ cache !! p = Some d.
Proof.
  intros H0. induction pos as [| pos IH]; intros Hpos; [lia |].
  simpl. destruct (cache !! pos) as [d |] eqn:Hd.
  - exists pos, d. repeat split; [lia | done].
  - destruct pos as [| pos]; [congruence |].
    destruct IH as (p & d & Hrun & Hlt & Hp); [lia |].
    exists p, d. repeat split; [done | lia | done].
Qed.

Lemma _computePosDetails_sound base pos st :
  cache_sound (input st) base (_cache st) ->
  exists st',
    _computePosDetails pos st = Done (scan (input st) pos 0 base, st') /\
    cache_sound (input st') base (_cache st') /\
    input st' = input st /\ _source st' = _source st /\
    _offset st' = _offset st /\ _mark st' = _mark st /\
    _expected st' = _expected st.
Proof.
  intros [H0 Hall]. unfold _computePosDetails.
  destruct (_cache st !! pos) as [d |] eqn:Hd.
  - exists st. rewrite (Hall _ _ Hd). by repeat split.
  - assert (Hpos : 0 < pos).
    { destruct pos; [congruence | lia]. }
    destruct (nearest_below_found _ _ _ H0 Hpos) as (p & d & Hrun & Hlt & Hp).
    rewrite Hrun. cbn [bindE].
    assert (Hscan : scan (input st) (pos - p) p d = scan (input st) pos 0 base).
    { rewrite (Hall _ _ Hp).
      replace pos with (p + (pos - p)) at 2 by lia.
      by rewrite scan_split. }
    rewrite Hscan. eexists. split; [reflexivity |].
    split; [| by repeat split].
    split; simpl.
    + rewrite lookup_insert_ne by lia. done.
    + intros q dq Hq.
      destruct (decide (pos = q)) as [-> | Hne].
      * rewrite lookup_insert_eq in Hq. congruence.
      * rewrite lookup_insert_ne in Hq by done. by apply Hall.
Qed.

Lemma get_lookup s : forall p,
  String.get p s = list_ascii_of_string s !! p.
Proof. induction s as [| a s IH]; intros [| p]; simpl; auto. Qed.

Lemma length_list_ascii s :
  length (list_ascii_of_string s) = JS.length s.
Proof. unfold JS.length. induction s; simpl; congruence. Qed.

Lemma advance_count_char inp p d c :
  String.get p inp = Some c -> advance inp p d = count_char d c.
Proof.
  intros Hget. unfold advance, count_char, JS.charCodeAt. rewrite Hget.
  simpl. rewrite !Nat.add_1_r.
  destruct (decide (c = newline)) as [-> | Hne].
  - by rewrite decide_True.
  - rewrite decide_False; [done |].
    intros Heq. injection Heq as Heq. apply Hne.
    apply (f_equal ascii_of_nat) in Heq.
    by rewrite ascii_nat_embedding in Heq.
Qed.

Lemma scan_fold inp n : forall p d,
  p + n <= JS.length inp ->
  scan inp n p d
  = fold_left count_char (take n (drop p (list_ascii_of_string inp))) d.
Proof.
  induction n as [| n IH]; intros p d Hle; [done |].
  destruct (get_lt_Some inp p) as [c Hc]; [lia |].
  cbn [scan]. rewrite (advance_count_char _ _ _ _ Hc), IH by lia.
  rewrite get_lookup in Hc.
  rewrite (drop_S _ _ _ Hc). done.
Qed.

Lemma scan_linear_scan inp line column o :
  o <= JS.length inp ->
  scan inp o 0 {| line := line; column := column |}
  = linear_scan inp line column o.
Proof. intros Hle. by rewrite scan_fold by lia. Qed.

Lemma _begin_keeps_cache st :
  input (_begin st) = input st /\ _cache (_begin st) = _cache st.
Proof. done. Qed.

Lemma _expect_keeps_cache e st st' :
  _expect e st = Done st' -> input st' = input st /\ _cache st' = _cache st.
Proof.
  unfold _expect. destruct (last (_expected st)) as [top |]; [| done].
  simpl. destruct (_ <? _); intros [= <-]; done.
Qed.

Lemma _end_keeps_cache invert st st' :
  _end invert st = Done st' -> input st' = input st /\ _cache st' = _cache st.
Proof.
  unfold _end. destruct (last (_expected st)) as [popped |]; [| done].
  simpl. destruct (last (removelast _)) as [top |]; [| done].
  simpl. destruct (decide _); intros [= <-]; done.
Qed.

Lemma matchers_keep_cache st :
  let keeps (m : ParserState -> Result string * ParserState) :=
    input (m st).2 = input st /\ _cache (m st).2 = _cache st in
  keeps matchAny /\
  (forall regexp, keeps (matchClass regexp)) /\
  (forall char charCode, keeps (matchChar char charCode)) /\
  (forall literal, keeps (matchLiteral literal)) /\
  (forall toLowerCase literal, keeps (matchLiteralIC toLowerCase literal)).
Proof.
  cbv zeta. unfold matchAny, matchClass, matchChar, matchLiteral,
    matchLiteralIC.
  repeat split; intros;
    repeat match goal with
           | |- context [if ?b then _ else _] => destruct b
           end; reflexivity.
Qed.

Lemma reachable_sound inp source o0 l0 c0 st :
  reachable (new_ParserState inp source o0 l0 c0) st ->
  input st = inp /\
  cache_sound inp {| line := l0; column := c0 |} (_cache st).
Proof.
  induction 1 as [| st pos d st' _ [Hin Hc] Hq | st st' _ [Hin Hc] Hi Hca].
  - split; [done |]. split; simpl.
    + apply lookup_singleton_eq.
    + intros p d Hp. apply lookup_singleton_Some in Hp as [<- <-]. done.
  - rewrite <- Hin in Hc.
    destruct (_computePosDetails_sound _ pos st Hc)
      as (st2 & Hrun & Hsound & Hinput & _).
    rewrite Hq in Hrun. injection Hrun as _ <-.
    split; [congruence |]. by rewrite <- Hin, <- Hinput.
  - split; [congruence |]. by rewrite Hca.
Qed.

(** C4.  From a state built by the constructor, after position queries
    and other steps in any order and number, a query at an offset [o]
    within the input returns the line and column of the direct linear
    scan from the baseline, and [_computeLocation] returns them for both
    of its ends. *)
Theorem position_queries_agree_with_linear_scan
    inp source o0 l0 c0 st o :
  reachable (new_ParserState inp source o0 l0 c0) st ->
  o <= JS.length inp ->
  (exists st',
     _computePosDetails o st = Done (linear_scan inp l0 c0 o, st') /\
     reachable (new_ParserState inp source o0 l0 c0) st') /\
  (forall e, e <= JS.length inp ->
     exists st',
       _computeLocation o e st
       = Done ({| source := _source st;
                  start := {| p_offset := o;
                              p_line := line (linear_scan inp l0 c0 o);
                              p_column := column (linear_scan inp l0 c0 o) |};
                  end_ := {| p_offset := e;
                             p_line := line (linear_scan inp l0 c0 e);
                             p_column := column (linear_scan inp l0 c0 e) |} |},
               st') /\
       reachable (new_ParserState inp source o0 l0 c0) st').
Proof.
  intros Hreach Ho.
  destruct (reachable_sound _ _ _ _ _ _ Hreach) as [Hin Hsound].
  rewrite <- Hin in Hsound.
  destruct (_computePosDetails_sound _ o st Hsound)
    as (st1 & Hrun1 & Hsound1 & Hin1 & Hsrc1 & _).
  rewrite Hin, scan_linear_scan in Hrun1 by done.
  assert (Hreach1 : reachable (new_ParserState inp source o0 l0 c0) st1)
    by (eapply reachable_query; eassumption).
  split; [by exists st1 |].
  intros e He.
  destruct (_computePosDetails_sound _ e st1 Hsound1)
    as (st2 & Hrun2 & _ & _ & Hsrc2 & _).
  rewrite Hin1, Hin, scan_linear_scan in Hrun2 by done.
  exists st2. split; [| eapply reachable_query; eassumption].
  unfold _computeLocation. rewrite Hrun1. cbn [bindE].
  rewrite Hrun2. cbn [bindE]. by rewrite Hsrc2, Hsrc1.
Qed.

Lemma position_queries_agree_with_linear_scan_witness :
  reachable (new_ParserState two_lines None 0 1 1) queried_at_5 /\
  4 <= JS.length two_lines /\
  exists st',
    _computePosDetails 4 queried_at_5 = Done ({| line := 2; column := 2 |}, st').
Proof.
  assert (Hreach : reachable (new_ParserState two_lines None 0 1 1) queried_at_5).
  { apply (reachable_query _ (new_ParserState two_lines None 0 1 1) 5
             {| line := 2; column := 3 |});
      [apply reachable_init | reflexivity]. }
  assert (Hle : 4 <= JS.length two_lines) by (vm_compute; lia).
  split; [exact Hreach |]. split; [exact Hle |].
  destruct (position_queries_agree_with_linear_scan
              two_lines None 0 1 1 queried_at_5 4 Hreach Hle)
    as [(st' & Hrun & _) _].
  exists st'. exact Hrun.
Defined.

(** The constructor stores the baseline at index 0 of the cache, whatever
    the baseline offset is; a query at a non-zero baseline offset finds no
    entry there and scans the input from index 0. *)
Lemma baseline_offset_has_no_entry inp source o0 l0 c0 :
  0 < o0 ->
  _cache (new_ParserState inp source o0 l0 c0) !! o0 = None /\
  _cache (new_ParserState inp source o0 l0 c0) !! 0
    = Some {| line := l0; column := c0 |}.
Proof.
  intros Hpos. simpl. split.
  - apply lookup_singleton_ne. lia.
  - apply lookup_singleton_eq.
Qed.

Lemma scan_moves inp n : forall p d,
  0 < n -> line d < line (scan inp n p d) \/
           (line d = line (scan inp n p d) /\ column d < column (scan inp n p d))
  .
Proof.
  induction n as [| n IH]; intros p d Hn; [lia |].
  cbn [scan].
  destruct n as [| n].
  - simpl. unfold advance. destruct (decide _); simpl; lia.
  - specialize (IH (S p) (advance inp p d) ltac:(lia)).
    revert IH. generalize (scan inp (S n) (S p) (advance inp p d)).
    intros d'. unfold advance. destruct (decide _); simpl; lia.
Qed.

Lemma baseline_offset_not_at_baseline_position inp source o0 l0 c0 :
  0 < o0 ->
  exists d st',
    _computePosDetails o0 (new_ParserState inp source o0 l0 c0)
    = Done (d, st') /\
    d <> {| line := l0; column := c0 |}.
Proof.
  intros Hpos.
  destruct (reachable_sound inp source o0 l0 c0 _ (reachable_init _))
    as [_ Hsound].
  destruct (_computePosDetails_sound _ o0
              (new_ParserState inp source o0 l0 c0) Hsound)
    as (st' & Hrun & _).
  eexists _, st'. split; [exact Hrun |].
  intros Heq.
  pose proof (scan_moves inp o0 0 {| line := l0; column := c0 |} Hpos) as Hm.
  simpl in Heq. rewrite Heq in Hm. simpl in Hm. lia.
Qed.

(** C5, the code at a non-zero baseline.  Built with baseline offset 1,
    line 5 and column 7, the state has its cache entry at index 0 and none
    at offset 1; the query at offset 1 scans the first character of the
    input and returns line 5, column 8, where the claim has line 5,
    column 7. *)
Lemma baseline_seeded_at_index_0 :
  _cache (new_ParserState "ab" None 1 5 7) !! 1 = None /\
  _cache (new_ParserState "ab" None 1 5 7) !! 0
    = Some {| line := 5; column := 7 |} /\
  _computePosDetails 1 (new_ParserState "ab" None 1 5 7)
    = Done ({| line := 5; column := 8 |},
            set_cache (<[1 := {| line := 5; column := 8 |}]>
                         (_cache (new_ParserState "ab" None 1 5 7)))
                      (new_ParserState "ab" None 1 5 7)).
Proof. repeat split. Qed.

End PositionCache.

(** ** Describing what was expected *)

Section Expected.

Implicit Types (d l phrases : list string) (es : list Expectation).

Lemma str_le_cases a b : JS.str_le a b <-> a = b \/ String_as_OT.lt a b.
Proof.
  unfold JS.str_le, String.leb.
  rewrite <- String_as_OT.cmp_lt, <- String_as_OT.cmp_eq.
  unfold String_as_OT.cmp. destruct (String.compare a b); split;
    intros H; auto; try discriminate; destruct H; discriminate.
Qed.

#[local] Instance str_le_total : Total JS.str_le.
Proof. intros a b. apply String.leb_total. Qed.

#[local] Instance str_le_antisym : AntiSymm (=) JS.str_le.
Proof. intros a b. apply String.leb_antisym. Qed.

#[local] Instance str_le_trans : Transitive JS.str_le.
Proof.
  intros a b c. rewrite !str_le_cases.
  intros [-> | Hab] [-> | Hbc]; auto.
  right. eapply String_as_OT.lt_trans; eassumption.
Qed.

Lemma sort_sorted l : StronglySorted JS.str_le (JS.sort l).
Proof. apply StronglySorted_merge_sort; apply _. Qed.

Lemma sort_permutation l : JS.sort l ≡ₚ l.
Proof. apply merge_sort_Permutation. Qed.

Lemma uniq_snoc l x :
  uniq (l ++ [x]) = if decide (last l = Some x) then uniq l else uniq l ++ [x].
Proof.
  induction l as [| a l IH]; [done |].
  destruct l as [| b l].
  - simpl. destruct (decide (a = x)) as [-> | Hne].
    + by rewrite decide_True.
    + rewrite decide_False by congruence. done.
  - change ((a :: b :: l) ++ [x]) with (a :: (b :: l) ++ [x]).
    change (last (a :: b :: l)) with (last (b :: l)).
    change (uniq (a :: (b :: l) ++ [x]))
      with (if decide (a = b) then uniq ((b :: l) ++ [x])
            else a :: uniq ((b :: l) ++ [x])).
    change (uniq (a :: b :: l))
      with (if decide (a = b) then uniq (b :: l) else a :: uniq (b :: l)).
    rewrite IH.
    destruct (decide (a = b)), (decide (last (b :: l) = Some x)); done.
Qed.

Lemma uniq_elem_of l x : x ∈ uniq l <-> x ∈ l.
Proof.
  induction l as [| a l IH]; [done |].
  destruct l as [| b l]; [done |].
  change (uniq (a :: b :: l))
    with (if decide (a = b) then uniq (b :: l) else a :: uniq (b :: l)).
  destruct (decide (a = b)) as [-> | Hne].
  - rewrite IH. rewrite !elem_of_cons. tauto.
  - rewrite (elem_of_cons (uniq _)), IH, !elem_of_cons. tauto.
Qed.

Lemma uniq_strictly_sorted l :
  StronglySorted JS.str_le l -> StronglySorted str_lt (uniq l).
Proof.
  induction 1 as [| a l Hs IH Hall]; [constructor |].
  destruct l as [| b l]; [repeat constructor |].
  change (uniq (a :: b :: l))
    with (if decide (a = b) then uniq (b :: l) else a :: uniq (b :: l)).
  destruct (decide (a = b)) as [-> | Hne]; [done |].
  constructor; [done |].
  rewrite Forall_forall in Hall |- *. intros z Hz.
  rewrite uniq_elem_of in Hz.
  split; [by apply Hall |].
  intros ->. apply Hne.
  apply (anti_symm JS.str_le); [apply Hall; by left |].
  apply StronglySorted_inv in Hs as [_ Hb].
  apply elem_of_cons in Hz as [-> | Hz]; [done |].
  rewrite Forall_forall in Hb. by apply Hb.
Qed.

Lemma strictly_sorted_unique l1 l2 :
  StronglySorted str_lt l1 -> StronglySorted str_lt l2 ->
  (forall x, x ∈ l1 <-> x ∈ l2) -> l1 = l2.
Proof.
  intros H1 H2 Hsame.
  assert (Hnodup : forall l, StronglySorted str_lt l -> NoDup l).
  { induction 1 as [| a l _ IH Hall]; constructor; [| done].
    intros Hin. rewrite Forall_forall in Hall.
    by destruct (Hall _ Hin) as [_ []]. }
  apply (StronglySorted_unique_strong str_lt); [| done | done |].
  - intros x1 x2 _ _ [H12 _] [H21 _]. by apply (anti_symm JS.str_le).
  - apply NoDup_Permutation; auto.
Qed.

Lemma dedupe_loop d0 k :
  k < length d0 ->
  exists d j,
    fold_left dedupe_step (seq 1 k) (d0, 1) = (d, j) /\
    length d = length d0 /\ 1 <= j <= S k /\
    take j d = uniq (take (S k) d0) /\
    forall m, k <= m -> d !! m = d0 !! m.
Proof.
  induction k as [| k IH]; intros Hk.
  - exists d0, 1. repeat split; try lia; try done.
    destruct d0 as [| x d0]; [simpl in Hk; lia |]. simpl. by rewrite take_0.
  - destruct IH as (d & j & Hrun & Hlen & Hj & Htake & Hrest); [lia |].
    rewrite seq_S, fold_left_app, Hrun. simpl.
    rewrite Nat.sub_0_r.
    rewrite (Hrest k), (Hrest (S k)) by lia.
    destruct (lookup_lt_is_Some_2 d0 k) as [x Hx]; [lia |].
    destruct (lookup_lt_is_Some_2 d0 (S k)) as [y Hy]; [lia |].
    rewrite Hx, Hy.
    assert (Huniq : uniq (take (S (S k)) d0)
                    = if decide (x = y) then uniq (take (S k) d0)
                      else uniq (take (S k) d0) ++ [y]).
    { rewrite (take_S_r _ _ _ Hy), uniq_snoc.
      rewrite (take_S_r _ _ _ Hx), last_snoc.
      destruct (decide (x = y)) as [-> | Hne].
      - by rewrite decide_True.
      - rewrite decide_False by congruence. done. }
    destruct (decide (Some x ≠ Some y)) as [Hne | Heq].
    + rewrite decide_False in Huniq by congruence.
      exists (<[j := y]> d), (S j).
      split; [done |]. split; [by rewrite length_insert |].
      split; [lia |]. split.
      * rewrite Huniq, <- Htake.
        rewrite (take_S_r _ _ y).
        -- by rewrite take_insert_ge by lia.
        -- apply list_lookup_insert_eq. lia.
      * intros m Hm. destruct (decide (j = m)) as [<- | Hjm].
        -- rewrite list_lookup_insert_eq by lia.
           assert (j = S k) as -> by lia. done.
        -- rewrite list_lookup_insert_ne by done. apply Hrest. lia.
    + apply dec_stable in Heq. injection Heq as ->.
      rewrite decide_True in Huniq by done.
      exists d, j. repeat split; try lia; try done.
      * by rewrite Huniq.
      * intros m Hm. apply Hrest. lia.
Qed.

Lemma dedupe_uniq d : dedupe d = uniq d.
Proof.
  unfold dedupe. destruct (0 <? length d) eqn:Hlen.
  - apply Nat.ltb_lt in Hlen.
    destruct (dedupe_loop d (length d - 1)) as (d' & j & Hrun & _ & _ & Htake & _);
      [lia |].
    rewrite Hrun, Htake.
    replace (S (length d - 1)) with (length d) by lia.
    by rewrite take_ge by lia.
  - apply Nat.ltb_ge in Hlen. by destruct d; [| simpl in Hlen; lia].
Qed.

Lemma phrases_of_elem_of es p :
  p ∈ phrases_of es <-> p ∈ describeExpectation <$> es.
Proof.
  unfold phrases_of. by rewrite uniq_elem_of, sort_permutation.
Qed.

Lemma phrases_of_sorted es : StronglySorted str_lt (phrases_of es).
Proof. apply uniq_strictly_sorted, sort_sorted. Qed.

Lemma phrases_of_nil es : phrases_of es = [] <-> es = [].
Proof.
  split; [| by intros ->].
  intros Hnil. destruct es as [| e es]; [done |].
  assert (Hin : describeExpectation e ∈ phrases_of (e :: es)).
  { apply phrases_of_elem_of. by left. }
  rewrite Hnil in Hin. by apply elem_of_nil in Hin.
Qed.

Lemma describeExpected_phrases es :
  describeExpected es =
    match phrases_of es with
    | [] => Done ", or undefined"
    | phrases => Done (join_phrases phrases)
    end.
Proof.
  unfold describeExpected. rewrite dedupe_uniq. fold (phrases_of es).
  destruct (phrases_of es) as [| a [| b [| c l]]]; try reflexivity.
  cbn [length]. unfold JS.index.
  replace (Z.of_nat (S (S (S (length l)))) - 1 <? 0)%Z with false
    by (symmetry; apply Z.ltb_ge; lia).
  replace (Z.to_nat (Z.of_nat (S (S (S (length l)))) - 1))
    with (pred (length (a :: b :: c :: l))) by (simpl; lia).
  rewrite <- last_lookup.
  assert (Hlast : is_Some (last (a :: b :: c :: l))).
  { apply not_eq_None_Some. by rewrite last_None. }
  destruct Hlast as [z Hz]. rewrite Hz. cbn [JS.to_text].
  unfold join_phrases. rewrite Hz. cbn [default].
  unfold JS.slice_0_m1. do 3 f_equal.
  clear Hz. generalize (a :: b :: c :: l) as l'. clear.
  intros l'. induction l' as [| x l' IH]; [done |].
  destruct l' as [| y l']; [done |].
  change (removelast (x :: y :: l')) with (x :: removelast (y :: l')).
  rewrite <- IH. simpl. by rewrite !Nat.sub_0_r.
Qed.

Lemma describeExpected_same_phrases es es' :
  (forall p, p ∈ describeExpectation <$> es' <->
             p ∈ describeExpectation <$> es) ->
  describeExpected es' = describeExpected es.
Proof.
  intros Hsame. rewrite !describeExpected_phrases.
  rewrite (strictly_sorted_unique (phrases_of es') (phrases_of es));
    [done | apply phrases_of_sorted | apply phrases_of_sorted |].
  intros p. by rewrite !phrases_of_elem_of.
Qed.

(** C8.  For a non-empty sequence of expectations, [describeExpected]
    returns the join of the phrases of its elements, where the phrases
    are in strictly increasing lexicographic order (sorted, no
    duplicates) and are exactly the rendered expectations, and the join is
    the phrase itself, two phrases around [ or ], or commas with [, or ]
    before the last.  So the result depends on the set of rendered
    phrases only: it is the same after reordering and after duplication,
    as for [[A; B; A]], [[A; B]] and [[B; A]]. *)
Theorem describeExpected_sorts_dedups_joins :
  (forall es, es <> [] ->
     exists phrases,
       StronglySorted str_lt phrases /\
       (forall p, p ∈ phrases <-> p ∈ describeExpectation <$> es) /\
       describeExpected es = Done (join_phrases phrases)) /\
  (forall a, join_phrases [a] = a) /\
  (forall a b, join_phrases [a; b] = a +:+ " or " +:+ b) /\
  (forall a b c rest,
     join_phrases (a :: b :: c :: rest)
     = JS.join ", " (removelast (a :: b :: c :: rest)) +:+ ", or "
         +:+ default EmptyString (last (a :: b :: c :: rest))) /\
  (forall es es',
     (forall p, p ∈ describeExpectation <$> es' <->
                p ∈ describeExpectation <$> es) ->
     describeExpected es' = describeExpected es) /\
  (forall es es', es' ≡ₚ es -> describeExpected es' = describeExpected es) /\
  (forall A B,
     describeExpected [A; B; A] = describeExpected [A; B] /\
     describeExpected [A; B] = describeExpected [B; A]).
Proof.
  split.
  { intros es Hne. exists (phrases_of es).
    split; [apply phrases_of_sorted |].
    split; [apply phrases_of_elem_of |].
    rewrite describeExpected_phrases.
    destruct (phrases_of es) eqn:Hp; [| done].
    by apply phrases_of_nil in Hp. }
  split; [done |]. split; [done |]. split; [done |].
  split; [apply describeExpected_same_phrases |].
  split.
  { intros es es' Hperm. apply describeExpected_same_phrases.
    intros p. by rewrite Hperm. }
  intros A B. split; apply describeExpected_same_phrases; intros p;
    cbn [fmap list_fmap]; rewrite !elem_of_cons; tauto.
Qed.

Lemma describeExpected_sorts_dedups_joins_witness :
  describeExpected [ELiteral "b"; EAny; ELiteral "a"; EAny]
  = describeExpected [EAny; ELiteral "a"; ELiteral "b"] /\
  describeExpected [EAny; ELiteral "a"; ELiteral "b"]
  = Done (String dquote "a" +:+ String dquote ", " +:+ String dquote "b"
          +:+ String dquote ", or any character").
Proof.
  destruct describeExpected_sorts_dedups_joins as (_ & _ & _ & _ & Hsame & _).
  split; [| reflexivity].
  apply Hsame. intros p.
  cbn [fmap list_fmap]. rewrite !elem_of_cons. tauto.
Defined.

End Expected.

(** ** The entry point *)

Section ParseOutcomes.

Context {V : Type}.

Implicit Types (st : ParserState) (ruleParseFunc : RuleFn V)
  (base : PosDetails).

Lemma _computeLocation_span base from to st :
  cache_sound (input st) base (_cache st) ->
  exists st',
    _computeLocation from to st
    = Done (span (_source st) (input st) base from to, st') /\
    cache_sound (input st') base (_cache st') /\
    input st' = input st /\ _source st' = _source st /\
    _offset st' = _offset st /\ _mark st' = _mark st /\
    _expected st' = _expected st.
Proof.
  intros Hsound. unfold _computeLocation.
  destruct (_computePosDetails_sound base from st Hsound)
    as (st1 & -> & Hsound1 & Hi1 & Hs1 & Ho1 & Hm1 & He1).
  cbn [bindE].
  destruct (_computePosDetails_sound base to st1 Hsound1)
    as (st2 & -> & Hsound2 & Hi2 & Hs2 & Ho2 & Hm2 & He2).
  cbn [bindE]. exists st2. rewrite Hi1. unfold span, position_at.
  rewrite Hs2, Hs1. split; [done |]. split; [exact Hsound2 |].
  repeat split; congruence.
Qed.

Lemma describeExpected_returns es : exists s, describeExpected es = Done s.
Proof.
  rewrite describeExpected_phrases. destruct (phrases_of es); eauto.
Qed.

(** On a stack that holds a frame, and with a cache as the constructor
    and the queries leave it, [buildError] returns the error built from
    the frame at index 0. *)
Lemma buildError_run base st root rest :
  _expected st = root :: rest ->
  cache_sound (input st) base (_cache st) ->
  exists e st', buildError st = Done (e, st') /\ built_from base st root e.
Proof.
  intros Hst Hsound. unfold buildError, built_from.
  rewrite Hst. cbn [lookup list_lookup defined bindE].
  unfold buildStructuredError, SyntaxError.buildMessage.
  destruct (describeExpected_returns (variants root)) as [d Hd].
  rewrite Hd. cbn [bindE].
  destruct (offset root <? JS.length (input st)) eqn:Hin.
  - destruct (_computeLocation_span base (offset root) (offset root + 1)
                st Hsound) as (st' & -> & _).
    cbn [bindE]. eexists _, st'. split; [reflexivity |].
    cbn [SyntaxError.expected SyntaxError.found SyntaxError.location
         SyntaxError.message].
    done.
  - destruct (_computeLocation_span base (offset root) (offset root)
                st Hsound) as (st' & -> & _).
    cbn [bindE]. eexists _, st'. split; [reflexivity |].
    cbn [SyntaxError.expected SyntaxError.found SyntaxError.location
         SyntaxError.message].
    done.
Qed.

Lemma set_expected_same st : set_expected (_expected st) st = st.
Proof. by destruct st. Qed.

(** C10, as amended.  On the empty sequence the phrase list is empty and
    the general branch of the join reads index [length - 1], which lies
    outside the list.  The read gives [undefined] and throws nothing: the
    concatenation turns it into text and [describeExpected] returns
    [, or undefined].  So [describeExpected] returns a text for every
    sequence, the joined phrases for a non-empty one.  [buildError]
    reaches the branch whenever the root frame has no variants, and
    returns an error with no expectation and the message made of that
    text; [parse] throws this error for a rule function that fails
    without a call to [_expect]. *)
Theorem describeExpected_without_expectations :
  JS.index (@nil string) (Z.of_nat (length (@nil string)) - 1) = None /\
  describeExpected [] = Done ", or undefined" /\
  (forall es, exists s, describeExpected es = Done s) /\
  (forall es, es <> [] ->
     describeExpected es = Done (join_phrases (phrases_of es))) /\
  (forall st root rest base,
     _expected st = root :: rest -> variants root = [] ->
     cache_sound (input st) base (_cache st) ->
     exists e st',
       buildError st = Done (e, st') /\
       SyntaxError.expected e = Some [] /\
       SyntaxError.message e
       = "Expected , or undefined but "
           +:+ describeFound (SyntaxError.found e) +:+ " found.") /\
  (forall inp source o0 bl bc,
     exists e st',
       @parse V (fun st => Done (Returns FAILED, st))
              (new_ParserState inp source o0 bl bc)
       = Done (Throws e, st') /\
       SyntaxError.expected e = Some [] /\
       SyntaxError.message e
       = "Expected , or undefined but "
           +:+ describeFound (SyntaxError.found e) +:+ " found.").
Proof.
  assert (Hbuild : forall st root rest base,
     _expected st = root :: rest -> variants root = [] ->
     cache_sound (input st) base (_cache st) ->
     exists e st',
       buildError st = Done (e, st') /\
       SyntaxError.expected e = Some [] /\
       SyntaxError.message e
       = "Expected , or undefined but "
           +:+ describeFound (SyntaxError.found e) +:+ " found.").
  { intros st root rest base Hst Hnil Hsound.
    destruct (buildError_run base st root rest Hst Hsound)
      as (e & st' & Hrun & Hexp & _ & _ & Hmsg).
    exists e, st'. split; [exact Hrun |]. rewrite Hnil in Hexp, Hmsg.
    split; [exact Hexp |].
    unfold SyntaxError.buildMessage in Hmsg. cbn [bindE describeExpected] in Hmsg.
    by injection Hmsg as <-. }
  split; [done |]. split; [done |].
  split; [apply describeExpected_returns |].
  split.
  { intros es Hne. rewrite describeExpected_phrases.
    destruct (phrases_of es) eqn:Hp; [by apply phrases_of_nil in Hp | done]. }
  split; [exact Hbuild |].
  intros inp source o0 bl bc. unfold parse. cbn [bindE].
  unfold throw_buildError.
  destruct (Hbuild (_begin (new_ParserState inp source o0 bl bc))
              {| offset := o0; variants := [] |} []
              {| line := bl; column := bc |} eq_refl eq_refl)
    as (e & st' & Hrun & Hexp & Hmsg).
  { apply (reachable_sound inp source o0 bl bc).
    apply reachable_step with (st := new_ParserState inp source o0 bl bc);
      [apply reachable_init | done | done]. }
  rewrite Hrun. cbn [bindE]. by exists e, st'.
Qed.

(** C3, as amended.  Let the rule function, run after [_begin], return
    [r] and leave the state [st2], with a frame on the stack and a cache
    as the constructor and the queries leave it.  If [r] is a result
    other than [FAILED] and the offset is the length of the input,
    [parse] returns that result and the state is [st2]: no error is
    built.  If [r] is such a result and the offset is below the length of
    the input, [parse] calls [_expect] with the end-of-input expectation:
    the top frame takes it at the current offset when that offset is not
    behind the frame's, and nothing is registered when it is behind;
    [parse] then throws the error built from the frame at index 0.  If
    [r] is [FAILED], [parse] throws the error built from the frame at
    index 0. *)
Theorem parse_outcomes ruleParseFunc base st r st2 root rest :
  ruleParseFunc (_begin st) = Done (Returns r, st2) ->
  _expected st2 = root :: rest ->
  cache_sound (input st2) base (_cache st2) ->
  (forall result,
     r = Matched result -> _offset st2 = JS.length (input st2) ->
     parse ruleParseFunc st = Done (Returns result, st2)) /\
  (forall result below top,
     r = Matched result -> _offset st2 < JS.length (input st2) ->
     _expected st2 = below ++ [top] ->
     let top' := registered EEnd (_offset st2) top in
     let st3 := set_expected (below ++ [top']) st2 in
     let root' := if decide (rest = []) then top' else root in
     _expect EEnd st2 = Done st3 /\
     (offset top <= _offset st2 ->
        offset top' = _offset st2 /\ last (variants top') = Some EEnd) /\
     (_offset st2 < offset top -> st3 = st2) /\
     _expected st3 !! 0 = Some root' /\
     exists e st',
       parse ruleParseFunc st = Done (Throws e, st') /\
       built_from base st3 root' e) /\
  (r = FAILED ->
     exists e st',
       parse ruleParseFunc st = Done (Throws e, st') /\
       built_from base st2 root e).
Proof.
  intros Hrule Hst Hsound. unfold parse. rewrite Hrule. cbn [bindE].
  split; [| split].
  - intros result -> Hend. by rewrite decide_True.
  - intros result below top -> Hleft Hstack. cbv zeta.
    rewrite (decide_False (P := _offset st2 = _)) by lia.
    assert (Hlt : (_offset st2 <? JS.length (input st2)) = true)
      by (by apply Nat.ltb_lt).
    rewrite Hlt.
    assert (Hexp : _expect EEnd st2
                   = Done (set_expected
                             (below ++ [registered EEnd (_offset st2) top])
                             st2)).
    { rewrite (_expect_run EEnd st2 below top Hstack). unfold registered.
      destruct (_offset st2 <? offset top) eqn:Hbehind.
      - by rewrite <- Hstack, set_expected_same.
      - apply Nat.ltb_ge in Hbehind.
        by rewrite Nat.max_r by lia. }
    rewrite Hexp. cbn [bindE].
    split; [done |].
    split.
    { intros Hle. unfold registered.
      rewrite (proj2 (Nat.ltb_ge _ _) Hle). cbn [offset variants].
      split; [done |]. apply last_snoc. }
    split.
    { intros Hbehind. unfold registered.
      rewrite (proj2 (Nat.ltb_lt _ _) Hbehind).
      by rewrite <- Hstack, set_expected_same. }
    assert (Hroot : (below ++ [registered EEnd (_offset st2) top]) !! 0
                    = Some (if decide (rest = [])
                            then registered EEnd (_offset st2) top
                            else root)).
    { rewrite Hst in Hstack. destruct below as [| f below].
      - injection Hstack as -> ->. by rewrite decide_True.
      - injection Hstack as -> ->.
        rewrite decide_False; [done |]. by destruct below. }
    split; [exact Hroot |].
    set (st3 := set_expected _ st2) in *.
    assert (Hst3 : exists tl, _expected st3
                   = (if decide (rest = [])
                      then registered EEnd (_offset st2) top else root) :: tl).
    { unfold st3. cbn [_expected set_expected].
      destruct (below ++ [registered EEnd (_offset st2) top]) as [| f tl];
        [done |].
      injection Hroot as ->. by exists tl. }
    destruct Hst3 as [tl Hst3].
    destruct (buildError_run base st3 _ tl Hst3 Hsound)
      as (e & st' & Hrun & Hbuilt).
    unfold throw_buildError. rewrite Hrun. cbn [bindE]. by exists e, st'.
  - intros ->.
    destruct (buildError_run base st2 root rest Hst Hsound)
      as (e & st' & Hrun & Hbuilt).
    unfold throw_buildError. rewrite Hrun. cbn [bindE]. by exists e, st'.
Qed.

End ParseOutcomes.

(** ** Runs of the entry point *)

Lemma describeExpected_without_expectations_witness :
  describeExpected [EEnd] = Done "end of input" /\
  exists e st',
    buildError (_begin (new_ParserState "ab" None 0 1 1)) = Done (e, st') /\
    SyntaxError.expected e = Some [].
Proof.
  destruct (@describeExpected_without_expectations string)
    as (_ & _ & _ & Hjoin & Hbuild & _).
  split.
  - apply (Hjoin [EEnd]). discriminate.
  - destruct (Hbuild (_begin (new_ParserState "ab" None 0 1 1))
                {| offset := 0; variants := [] |} []
                {| line := 1; column := 1 |} eq_refl eq_refl)
      as (e & st' & Hrun & Hexp & _).
    { split; [reflexivity |].
      intros p d Hp. cbn [_cache _begin set_expected new_ParserState] in Hp.
      apply lookup_singleton_Some in Hp as [<- <-]. reflexivity. }
    by exists e, st'.
Defined.

(** C10, as stated, fails: with no expectation nothing throws a
    [TypeError].  [describeExpected] returns a text, and [parse] throws
    the error of the grammar with that text in its message. *)
Lemma no_expectation_is_no_type_error :
  describeExpected [] = Done ", or undefined" /\
  exists e st',
    parse rule_fails_silently (new_ParserState "ab" None 0 1 1)
    = Done (Throws e, st') /\
    SyntaxError.expected e = Some [] /\
    SyntaxError.found e = Some "a" /\
    SyntaxError.message e
    = "Expected , or undefined but " +:+ String dquote "a"
        +:+ String dquote " found.".
Proof. split; [reflexivity |]. eexists _, _. repeat split. Qed.

Lemma parse_outcomes_witness :
  (exists st',
     parse rule_a_then_c (new_ParserState "ac" None 0 1 1)
     = Done (Returns "ac", st')) /\
  (exists e st',
     parse rule_a_then_c (new_ParserState "ab" None 0 1 1)
     = Done (Throws e, st') /\
     SyntaxError.expected e = Some [ELiteral "c"] /\
     SyntaxError.found e = Some "b" /\
     p_offset (start (SyntaxError.location e)) = 1) /\
  (exists e st',
     parse rule_a_then_c (new_ParserState "acd" None 0 1 1)
     = Done (Throws e, st') /\
     SyntaxError.expected e = Some [EEnd] /\
     SyntaxError.found e = Some "d").
Proof.
  assert (Hsound : forall inp st,
            input st = inp ->
            _cache st = _cache (new_ParserState inp None 0 1 1) ->
            cache_sound (input st) {| line := 1; column := 1 |} (_cache st)).
  { intros inp st Hin Hc. rewrite Hin.
    apply (reachable_sound inp None 0 1 1).
    apply reachable_step with (st := new_ParserState inp None 0 1 1);
      [apply reachable_init | done | done]. }
  split; [| split].
  - edestruct (parse_outcomes rule_a_then_c {| line := 1; column := 1 |}
                 (new_ParserState "ac" None 0 1 1)) as (Hret & _);
      [reflexivity | reflexivity | by apply (Hsound "ac") |].
    eexists. apply Hret; reflexivity.
  - edestruct (parse_outcomes rule_a_then_c {| line := 1; column := 1 |}
                 (new_ParserState "ab" None 0 1 1)) as (_ & _ & Hfail);
      [reflexivity | reflexivity | by apply (Hsound "ab") |].
    destruct (Hfail eq_refl) as (e & st' & Hrun & Hexp & Hfound & Hloc & _).
    exists e, st'. split; [exact Hrun |]. split; [exact Hexp |].
    split; [exact Hfound |]. by rewrite Hloc.
  - edestruct (parse_outcomes rule_a_then_c {| line := 1; column := 1 |}
                 (new_ParserState "acd" None 0 1 1)) as (_ & Hleft & _);
      [reflexivity | reflexivity | by apply (Hsound "acd") |].
    destruct (Hleft "ac" [] {| offset := 0; variants := [] |}
                eq_refl ltac:(vm_compute; lia) eq_refl)
      as (_ & _ & _ & _ & e & st' & Hrun & Hexp & Hfound & _).
    exists e, st'. split; [exact Hrun |]. split; [exact Hexp | exact Hfound].
Defined.

(** C3, as stated, fails where the rule function has registered an
    expectation further on.  For the literal [a] followed by the optional
    literals [b] and [c], on the input [abd], the rule returns the [a]
    with the offset at 1, the literal [c] having been expected at offset
    2.  The call of [_expect] for the end of input is behind that offset
    and leaves the state as it is: the error holds the literal [c] alone,
    at offset 2, and no end of input. *)
Lemma parse_left_over_registers_nothing :
  exists st2 e st',
    rule_a_optional_bc (_begin (new_ParserState "abd" None 0 1 1))
    = Done (Returns (Matched "a"), st2) /\
    _offset st2 = 1 /\ _offset st2 < JS.length (input st2) /\
    _expect EEnd st2 = Done st2 /\
    parse rule_a_optional_bc (new_ParserState "abd" None 0 1 1)
    = Done (Throws e, st') /\
    SyntaxError.expected e = Some [ELiteral "c"] /\
    SyntaxError.found e = Some "d" /\
    p_offset (start (SyntaxError.location e)) = 2.
Proof.
  eexists _, _, _. split; [reflexivity |]. split; [reflexivity |].
  split; [vm_compute; lia |]. repeat split.
Qed.

(** The end-of-input expectation goes through [_expect]: when the rule
    function has registered an expectation further on, the call made for
    the left-over input is behind it and the error keeps the further
    expectation alone. *)
Example parse_left_over_behind_furthest :
  exists e st',
    parse rule_with_lookahead (new_ParserState "abc" None 0 1 1)
    = Done (Throws e, st') /\
    _offset st' = 1 /\
    SyntaxError.expected e = Some [ELiteral "x"] /\
    SyntaxError.found e = Some "c".
Proof. eexists _, _. repeat split. Qed.

(** ** Escaping *)

Section Escaping.

Implicit Types (s a b : string) (c : ascii).

Lemma append_cons c a b : String c a +:+ b = String c (a +:+ b).
Proof. reflexivity. Qed.

Lemma append_assoc a b s : (a +:+ b) +:+ s = a +:+ (b +:+ s).
Proof.
  induction a as [| x a IH]; [done |]. rewrite !append_cons. by rewrite IH.
Qed.

Lemma append_empty_r a : a +:+ EmptyString = a.
Proof.
  induction a as [| x a IH]; [done |]. rewrite append_cons. by rewrite IH.
Qed.

Lemma replace_append p f a b :
  JS.replace p f (a +:+ b) = JS.replace p f a +:+ JS.replace p f b.
Proof.
  induction a as [| x a IH]; [done |].
  rewrite append_cons. cbn [JS.replace]. by rewrite IH, append_assoc.
Qed.

Lemma literalEscape_append a b :
  literalEscape (a +:+ b) = literalEscape a +:+ literalEscape b.
Proof. unfold literalEscape. by rewrite !replace_append. Qed.

Lemma classEscape_append a b :
  classEscape (a +:+ b) = classEscape a +:+ classEscape b.
Proof. unfold classEscape. by rewrite !replace_append. Qed.

Lemma literalEscape_cons c s :
  literalEscape (String c s)
  = literalEscape (String c EmptyString) +:+ literalEscape s.
Proof. by rewrite <- literalEscape_append. Qed.

Lemma classEscape_cons c s :
  classEscape (String c s)
  = classEscape (String c EmptyString) +:+ classEscape s.
Proof. by rewrite <- classEscape_append. Qed.

Lemma all_units_append p a b :
  all_units p (a +:+ b) = all_units p a && all_units p b.
Proof.
  induction a as [| x a IH]; [done |].
  rewrite append_cons. cbn [all_units]. by rewrite IH, andb_assoc.
Qed.

Ltac each_unit c := destruct c as [[] [] [] [] [] [] [] []]; vm_compute; reflexivity.

Lemma literalEscape_unit_no_control c :
  all_units (fun u => negb (is_control u)) (literalEscape (String c EmptyString))
  = true.
Proof. each_unit c. Qed.

Lemma classEscape_unit_no_control c :
  all_units (fun u => negb (is_control u)) (classEscape (String c EmptyString))
  = true.
Proof. each_unit c. Qed.


Lemma literalEscape_unit_plain c :
  plain_literal_unit c = true ->
  literalEscape (String c EmptyString) = String c EmptyString.
Proof.
  destruct c as [[] [] [] [] [] [] [] []]; vm_compute;
    intros H; (reflexivity || discriminate H).
Qed.

Lemma literalEscape_unit_read c r :
  read_escaped literal_punctuation (literalEscape (String c EmptyString) +:+ r)
  = Some (c, r).
Proof. destruct c as [[] [] [] [] [] [] [] []]; reflexivity. Qed.

Lemma classEscape_unit_read c r :
  read_escaped class_punctuation (classEscape (String c EmptyString) +:+ r)
  = Some (c, r).
Proof. destruct c as [[] [] [] [] [] [] [] []]; reflexivity. Qed.

Lemma literalEscape_unit_shape c :
  exists k u, literalEscape (String c EmptyString) = String k u.
Proof. destruct c as [[] [] [] [] [] [] [] []]; vm_compute; eauto. Qed.

Lemma classEscape_unit_shape c :
  exists k u, classEscape (String c EmptyString) = String k u.
Proof. destruct c as [[] [] [] [] [] [] [] []]; vm_compute; eauto. Qed.

Lemma length_append a b :
  JS.length (a +:+ b) = JS.length a + JS.length b.
Proof.
  unfold JS.length. induction a as [| x a IH]; [done |].
  rewrite append_cons. simpl. by rewrite IH.
Qed.

(** Reading back succeeds with any fuel that covers the units of the
    original text. *)
Lemma unescape_escaped extra (escape : string -> string) :
  (forall c s, escape (String c s) = escape (String c EmptyString) +:+ escape s) ->
  escape EmptyString = EmptyString ->
  (forall c r, read_escaped extra (escape (String c EmptyString) +:+ r) = Some (c, r)) ->
  (forall c, exists k u, escape (String c EmptyString) = String k u) ->
  forall s fuel, JS.length s <= fuel -> unescape extra fuel (escape s) = Some s.
Proof.
  intros Hcons Hnil Hread Hshape.
  induction s as [| c s IH]; intros fuel Hfuel.
  - rewrite Hnil. by destruct fuel.
  - destruct fuel as [| fuel]; [unfold JS.length in Hfuel; simpl in Hfuel; lia |].
    rewrite Hcons. pose proof (Hread c (escape s)) as Hr.
    destruct (Hshape c) as (k & u & Hku). rewrite Hku in Hr |- *.
    rewrite append_cons in Hr |- *. cbn [unescape]. rewrite Hr.
    rewrite IH; [done |]. unfold JS.length in *. simpl in Hfuel. lia.
Qed.

Lemma escaped_length (escape : string -> string) :
  (forall c s, escape (String c s) = escape (String c EmptyString) +:+ escape s) ->
  (forall c, exists k u, escape (String c EmptyString) = String k u) ->
  forall s, JS.length s <= JS.length (escape s).
Proof.
  intros Hcons Hshape. induction s as [| c s IH]; [unfold JS.length; simpl; lia |].
  rewrite Hcons, length_append. destruct (Hshape c) as (k & u & ->).
  unfold JS.length in *. simpl. lia.
Qed.

(** X1.  Escaping is compositional: the escape of a concatenation is the
    concatenation of the escapes, for [literalEscape] and for
    [classEscape], so the chain of replacements escapes a text unit by
    unit. *)
Theorem escape_of_concatenation a b :
  literalEscape (a +:+ b) = literalEscape a +:+ literalEscape b /\
  classEscape (a +:+ b) = classEscape a +:+ classEscape b.
Proof. split; [apply literalEscape_append | apply classEscape_append]. Qed.

(** X2.  No control character reaches the output: every unit of
    [literalEscape s] and of [classEscape s] lies outside 0x00-0x1F and
    0x7F-0x9F. *)
Theorem escape_leaves_no_control_character s :
  all_units (fun u => negb (is_control u)) (literalEscape s) = true /\
  all_units (fun u => negb (is_control u)) (classEscape s) = true.
Proof.
  split; induction s as [| c s IH]; try reflexivity.
  - rewrite literalEscape_cons, all_units_append, IH.
    by rewrite literalEscape_unit_no_control.
  - rewrite classEscape_cons, all_units_append, IH.
    by rewrite classEscape_unit_no_control.
Qed.

(** X3.  A text without backslash, double quote and control characters is
    its own literal escape. *)
Theorem literalEscape_plain_text s :
  all_units plain_literal_unit s = true -> literalEscape s = s.
Proof.
  induction s as [| c s IH]; [done |]. cbn [all_units].
  intros [Hc Hs]%andb_prop. rewrite literalEscape_cons, IH by done.
  by rewrite literalEscape_unit_plain.
Qed.

Lemma literalEscape_plain_text_witness :
  literalEscape "end of input" = "end of input".
Proof. apply literalEscape_plain_text. reflexivity. Defined.

(** X4.  Escaping loses nothing: the original text is read back from its
    escape, unit by unit, so two texts with the same escape are equal.
    This holds for [literalEscape] and for [classEscape]. *)
Theorem escape_is_injective :
  (forall s, unescape literal_punctuation (JS.length (literalEscape s))
               (literalEscape s) = Some s) /\
  (forall s, unescape class_punctuation (JS.length (classEscape s))
               (classEscape s) = Some s) /\
  (forall s1 s2, literalEscape s1 = literalEscape s2 -> s1 = s2) /\
  (forall s1 s2, classEscape s1 = classEscape s2 -> s1 = s2).
Proof.
  assert (Hlit : forall s, unescape literal_punctuation
                   (JS.length (literalEscape s)) (literalEscape s) = Some s).
  { intros s.
    apply (unescape_escaped _ literalEscape literalEscape_cons eq_refl
             literalEscape_unit_read literalEscape_unit_shape).
    apply (escaped_length literalEscape literalEscape_cons
             literalEscape_unit_shape). }
  assert (Hcls : forall s, unescape class_punctuation
                   (JS.length (classEscape s)) (classEscape s) = Some s).
  { intros s.
    apply (unescape_escaped _ classEscape classEscape_cons eq_refl
             classEscape_unit_read classEscape_unit_shape).
    apply (escaped_length classEscape classEscape_cons
             classEscape_unit_shape). }
  repeat split; try done.
  - intros s1 s2 Heq. pose proof (Hlit s1) as H1. rewrite Heq, Hlit in H1.
    congruence.
  - intros s1 s2 Heq. pose proof (Hcls s1) as H1. rewrite Heq, Hcls in H1.
    congruence.
Qed.

End Escaping.

(** ** The frame protocol *)

Section FrameProtocol.

Implicit Types (st : ParserState) (rest : list Frame) (top popped : Frame)
  (ops inner : list FrameOp).

Lemma run_ops_app ops1 ops2 st :
  run_ops (ops1 ++ ops2) st = (do st' <- run_ops ops1 st; run_ops ops2 st').
Proof.
  revert st. induction ops1 as [| op ops1 IH]; intros st; [done |].
  cbn [app run_ops]. destruct (run_op op st); cbn [bindE]; auto.
Qed.

Lemma extends_refl top : extends top top.
Proof. split; [lia | done]. Qed.

Lemma extends_trans top1 top2 top3 :
  extends top1 top2 -> extends top2 top3 -> extends top1 top3.
Proof.
  intros [Hle1 Hp1] [Hle2 Hp2]. split; [lia |].
  intros Heq. etrans; [apply Hp1 | apply Hp2]; lia.
Qed.

Lemma balanced_run ops :
  balanced ops ->
  forall st rest top,
    _expected st = rest ++ [top] ->
    exists st' top',
      run_ops ops st = Done st' /\
      _expected st' = rest ++ [top'] /\
      extends top top' /\
      input st' = input st /\ _mark st' = _mark st /\ _cache st' = _cache st.
Proof.
  induction 1 as [| e ops _ IH | o ops _ IH | invert inner ops _ IHin _ IH];
    intros st rest top Hst.
  - exists st, top. repeat split; [done | lia | done].
  - cbn [run_ops run_op]. rewrite (_expect_run e st rest top Hst). cbn [bindE].
    destruct (_offset st <? offset top) eqn:Hlt.
    + apply IH. done.
    + apply Nat.ltb_ge in Hlt.
      set (top1 := {| offset := Nat.max (offset top) (_offset st);
                      variants := (if offset top <? _offset st then []
                                   else variants top) ++ [e] |}).
      destruct (IH (set_expected (rest ++ [top1]) st) rest top1 eq_refl)
        as (st' & top' & Hrun & Hstack & Hext & Hi & Hm & Hc).
      exists st', top'. split; [exact Hrun |]. split; [done |].
      split; [| done].
      eapply extends_trans; [| exact Hext].
      split; simpl; [lia |].
      intros Heq. destruct (offset top <? _offset st) eqn:Hgt.
      * apply Nat.ltb_lt in Hgt. lia.
      * by apply prefix_app_r.
  - cbn [run_ops run_op bindE].
    destruct (IH (set_offset o st) rest top Hst)
      as (st' & top' & Hrun & Hstack & Hext & Hi & Hm & Hc).
    by exists st', top'.
  - cbn [run_ops run_op bindE]. rewrite run_ops_app.
    destruct (IHin (_begin st) (rest ++ [top])
                {| offset := _offset st; variants := [] |})
      as (st1 & new' & Hrun1 & Hstack1 & _ & Hi1 & Hm1 & Hc1).
    { unfold _begin. simpl. by rewrite Hst. }
    rewrite Hrun1. cbn [bindE run_ops run_op].
    rewrite <- app_assoc in Hstack1. simpl in Hstack1.
    rewrite (_end_run invert st1 rest top new' Hstack1). cbn [bindE].
    destruct (IH (set_expected (rest ++ [merged invert top new']) st1)
                rest (merged invert top new') eq_refl)
      as (st' & top' & Hrun & Hstack & Hext & Hi & Hm & Hc).
    exists st', top'. split; [exact Hrun |]. split; [done |].
    split; [| simpl in *; repeat split; congruence].
    eapply extends_trans; [| exact Hext].
    unfold merged. destruct (decide _); [| apply extends_refl].
    split; simpl; [lia |]. intros _. by apply prefix_app_r.
Qed.


(** X5.  A balanced run of [_begin], [_end], [_expect] and moves of the
    offset, started on a non-empty stack, never fails; it leaves the stack
    at its depth and the frames below the top as they were, and the top
    frame either has a greater offset or has the same offset and its
    earlier variants in front of the new ones.  Input, mark and cache are
    untouched. *)
Theorem balanced_run_keeps_stack ops st rest top :
  balanced ops ->
  _expected st = rest ++ [top] ->
  exists st' top',
    run_ops ops st = Done st' /\
    _expected st' = rest ++ [top'] /\
    offset top <= offset top' /\
    (offset top' = offset top -> variants top `prefix_of` variants top') /\
    input st' = input st /\ _mark st' = _mark st /\ _cache st' = _cache st.
Proof.
  intros Hbal Hst.
  destruct (balanced_run ops Hbal st rest top Hst)
    as (st' & top' & Hrun & Hstack & [Hle Hpre] & Hi & Hm & Hc).
  by exists st', top'.
Qed.

Lemma balanced_run_keeps_stack_witness :
  exists st' top',
    run_ops rule_body (_begin (new_ParserState "abc" None 0 1 1)) = Done st' /\
    _expected st' = [] ++ [top'] /\
    top' = {| offset := 0; variants := [EAny] |}.
Proof.
  assert (Hbal : balanced rule_body).
  { apply balanced_expect.
    apply (balanced_nest false
             [OpMove 2; OpExpect (ELiteral "a"); OpBegin; OpMove 3;
              OpExpect EEnd; OpEnd true] [OpMove 0]).
    - apply balanced_move, balanced_expect.
      apply (balanced_nest true [OpMove 3; OpExpect EEnd] []).
      + apply balanced_move, balanced_expect, balanced_nil.
      + apply balanced_nil.
    - apply balanced_move, balanced_nil. }
  destruct (balanced_run_keeps_stack rule_body
              (_begin (new_ParserState "abc" None 0 1 1)) []
              {| offset := 0; variants := [] |} Hbal eq_refl)
    as (st' & top' & Hrun & Hstack & _).
  exists st', top'. split; [exact Hrun |]. split; [exact Hstack |].
  vm_compute in Hrun. injection Hrun as <-.
  vm_compute in Hstack. by injection Hstack as <-.
Defined.

(** X6.  A frame that is begun and ended at once leaves no trace: on a
    state with at least one frame, [_begin] followed by [_end] gives the
    state back, whatever [invert] is. *)
Theorem begin_end_round_trip invert st :
  _expected st <> [] -> _end invert (_begin st) = Done st.
Proof.
  intros Hne.
  destruct (proj1 (last_Some (_expected st)
              (default {| offset := 0; variants := [] |} (last (_expected st)))))
    as [rest Hst].
  { destruct (last (_expected st)) eqn:Hl; [done |].
    by apply last_None in Hl. }
  set (top := default _ _) in Hst.
  rewrite (_end_run invert (_begin st) rest top
             {| offset := _offset st; variants := [] |}).
  - f_equal. unfold merged. cbn [offset variants].
    assert (Hm : (if decide (_offset st = offset top)
                  then {| offset := offset top;
                          variants := variants top ++
                            (if invert then invert_variant <$> [] else []) |}
                  else top) = top).
    { destruct (decide _); [| done]. destruct invert, top; simpl;
        by rewrite app_nil_r. }
    rewrite Hm. unfold _begin.
    replace (set_expected (rest ++ [top]) (set_expected _ st))
      with (set_expected (_expected st) st) by (by rewrite Hst).
    apply set_expected_same.
  - unfold _begin. simpl. rewrite Hst, <- app_assoc. done.
Qed.

Lemma begin_end_round_trip_witness :
  _end true (_begin (_begin (new_ParserState "ab" None 0 1 1)))
  = Done (_begin (new_ParserState "ab" None 0 1 1)).
Proof. apply begin_end_round_trip. discriminate. Defined.

Lemma _end_attempt_agrees invert st :
  _end invert st
  = match _end_attempt invert st with
    | Returned st' => Done st'
    | TypeErrorAt _ => UndefinedRead
    end.
Proof.
  unfold _end, _end_attempt.
  destruct (last (_expected st)) as [popped |]; [| done].
  cbn [defined bindE].
  destruct (last (removelast (_expected st))) as [top |]; [| done].
  cbn [defined bindE]. by destruct (decide _).
Qed.

(** X7.  The frame calls fail exactly on a stack that is too short:
    [_expect] reads a property of [undefined] exactly when there is no
    frame, [_end] exactly when there are fewer than two frames; neither
    ever loops.  The [TypeError] of [_end] on an empty stack leaves the
    state as it was; on a stack of one frame it comes after [pop] and
    leaves the stack empty. *)
Theorem frame_calls_need_frames st :
  (forall e, _expect e st = UndefinedRead <-> _expected st = []) /\
  (forall invert,
     _end invert st = UndefinedRead <-> length (_expected st) < 2) /\
  (forall e, _expect e st <> NoExit) /\
  (forall invert, _end invert st <> NoExit) /\
  (forall invert,
     _end invert st
     = match _end_attempt invert st with
       | Returned st' => Done st'
       | TypeErrorAt _ => UndefinedRead
       end) /\
  (forall invert,
     _expected st = [] -> _end_attempt invert st = TypeErrorAt st) /\
  (forall invert root,
     _expected st = [root] ->
     _end_attempt invert st = TypeErrorAt (set_expected [] st)).
Proof.
  assert (Hattempt :
    (forall invert,
       _end invert st
       = match _end_attempt invert st with
         | Returned st' => Done st'
         | TypeErrorAt _ => UndefinedRead
         end) /\
    (forall invert,
       _expected st = [] -> _end_attempt invert st = TypeErrorAt st) /\
    (forall invert root,
       _expected st = [root] ->
       _end_attempt invert st = TypeErrorAt (set_expected [] st))).
  { split; [intros invert; apply _end_attempt_agrees |].
    split.
    - intros invert Hnil. unfold _end_attempt. by rewrite Hnil.
    - intros invert root Hone. unfold _end_attempt. by rewrite Hone. }
  cut ((forall e, _expect e st = UndefinedRead <-> _expected st = []) /\
       (forall invert,
          _end invert st = UndefinedRead <-> length (_expected st) < 2) /\
       (forall e, _expect e st <> NoExit) /\
       (forall invert, _end invert st <> NoExit)); [tauto |].
  clear Hattempt.
  assert (Hcases : _expected st = [] \/
                   (exists top, _expected st = [top]) \/
                   (exists rest top popped, _expected st = rest ++ [top; popped])).
  { destruct (_expected st) as [| f l] using rev_ind; [by left |].
    right. destruct l as [| g l] using rev_ind; [left; by exists f |].
    right. exists l, g, f. by rewrite <- app_assoc. }
  destruct Hcases as [Hnil | [[top Hone] | (rest & top & popped & Htwo)]].
  - repeat split; unfold _expect, _end; rewrite Hnil; simpl; try done; lia.
  - repeat split; intros; try (unfold _end; by rewrite Hone);
      try (rewrite Hone; simpl; lia).
    + rewrite (_expect_run e st [] top Hone) in H. discriminate.
    + rewrite Hone in H. discriminate.
    + by rewrite (_expect_run e st [] top Hone).
  - repeat split; intros.
    + rewrite (_expect_run e st (rest ++ [top]) popped) in H
        by (by rewrite <- app_assoc).
      discriminate.
    + rewrite Htwo in H. by destruct rest.
    + by rewrite (_end_run invert st rest top popped Htwo) in H.
    + rewrite Htwo, length_app in H. simpl in H. lia.
    + by rewrite (_expect_run e st (rest ++ [top]) popped)
        by (by rewrite <- app_assoc).
    + by rewrite (_end_run invert st rest top popped Htwo).
Qed.

Lemma frame_calls_need_frames_witness :
  _end_attempt false (_begin (new_ParserState "ab" None 0 1 1))
  = TypeErrorAt (new_ParserState "ab" None 0 1 1).
Proof.
  destruct (frame_calls_need_frames (_begin (new_ParserState "ab" None 0 1 1)))
    as (_ & _ & _ & _ & _ & _ & Hone).
  apply (Hone false {| offset := 0; variants := [] |}). reflexivity.
Defined.

Lemma invert_variant_involutive e :
  double_not e = false ->
  invert_variant (invert_variant e) = e /\
  double_not (invert_variant e) = false.
Proof.
  destruct e as [| | | | | | inner]; try done.
  destruct inner; try done.
Qed.

Lemma invert_variants_involutive (vs : list Expectation) :
  Forall (fun e => double_not e = false) vs ->
  invert_variant <$> (invert_variant <$> vs) = vs.
Proof.
  induction 1 as [| e vs He _ IH]; [done |].
  cbn [fmap list_fmap] in *. rewrite IH.
  by rewrite (proj1 (invert_variant_involutive e He)).
Qed.

(** X8.  Two nested inversions cancel.  With three frames at one offset,
    two [_end] with [invert] in a row pass the variants of the innermost
    frame to the outermost one unchanged, after the once-inverted variants
    of the middle frame, provided no variant of the innermost frame is
    negated twice at its head. *)
Theorem nested_inversions_cancel st rest (outer middle inner : Frame) :
  _expected st = rest ++ [outer; middle; inner] ->
  offset inner = offset middle -> offset middle = offset outer ->
  Forall (fun e => double_not e = false) (variants inner) ->
  (do st1 <- _end true st; _end true st1)
  = Done (set_expected
            (rest ++ [ {| offset := offset outer;
                          variants := variants outer
                                      ++ (invert_variant <$> variants middle)
                                      ++ variants inner |} ]) st).
Proof.
  intros Hst Him Hmo Hnormal.
  rewrite (_end_run true st (rest ++ [outer]) middle inner)
    by (by rewrite Hst, <- app_assoc).
  cbn [bindE].
  rewrite (_end_run true _ rest outer (merged true middle inner))
    by (by rewrite <- app_assoc).
  f_equal. unfold merged. cbn [set_expected _expected].
  rewrite !decide_True by (simpl; try rewrite decide_True by done; simpl; lia).
  cbn [offset variants]. rewrite fmap_app, invert_variants_involutive by done.
  by destruct st.
Qed.

Lemma nested_inversions_cancel_witness :
  (do st1 <- _end true nested_lookahead_state; _end true st1)
  = Done (set_expected
            [ {| offset := 1;
                 variants := [EAny; ENot (ERule "r"); ELiteral "a"; ENot EEnd] |} ]
            nested_lookahead_state).
Proof.
  apply (nested_inversions_cancel nested_lookahead_state []
           {| offset := 1; variants := [EAny] |}
           {| offset := 1; variants := [ERule "r"] |}
           {| offset := 1; variants := [ELiteral "a"; ENot EEnd] |});
    [reflexivity | reflexivity | reflexivity |].
  repeat constructor.
Defined.

End FrameProtocol.

(** ** Positions *)

Section Positions.

Implicit Types (st : ParserState) (cache : gmap nat PosDetails).

Lemma nearest_below_None cache pos :
  nearest_below cache pos = NoExit <-> forall p, p < pos -> cache !! p = None.
Proof.
  induction pos as [| pos IH]; simpl.
  - split; [intros _ p Hp; lia | done].
  - destruct (cache !! pos) as [d |] eqn:Hd.
    + split; [done |]. intros H. specialize (H pos ltac:(lia)). congruence.
    + rewrite IH. split; intros H p Hp.
      * destruct (decide (p = pos)) as [-> | Hne]; [done |]. apply H. lia.
      * apply H. lia.
Qed.

Lemma nearest_below_defined cache pos :
  nearest_below cache pos <> UndefinedRead.
Proof.
  induction pos as [| pos IH]; simpl; [done |].
  by destruct (cache !! pos).
Qed.

(** X9.  The cache memoizes and only grows: after a query at [pos], the
    entry for [pos] is the returned value, every earlier entry is kept, a
    second query at [pos] returns the same value and changes nothing, and
    apart from the cache the state is as before. *)
Theorem position_query_is_memoized pos st d st' :
  _computePosDetails pos st = Done (d, st') ->
  _cache st' !! pos = Some d /\
  (forall p d0, _cache st !! p = Some d0 -> _cache st' !! p = Some d0) /\
  _computePosDetails pos st' = Done (d, st') /\
  st' = set_cache (_cache st') st.
Proof.
  unfold _computePosDetails.
  destruct (_cache st !! pos) as [d0 |] eqn:Hd.
  - intros [= <- <-]. rewrite Hd. repeat split; try done. by destruct st.
  - destruct (nearest_below (_cache st) pos) as [[p dp] | |]; try done.
    cbn [bindE]. intros [= <- <-]. cbn [_cache set_cache].
    rewrite lookup_insert_eq. repeat split; try done.
    intros p0 d0 Hp0. rewrite lookup_insert_ne; [done |]. congruence.
Qed.

Lemma position_query_is_memoized_witness :
  exists d st',
    _computePosDetails 4 (new_ParserState three_lines None 0 1 1) = Done (d, st') /\
    _cache st' !! 4 = Some {| line := 2; column := 2 |} /\
    _cache st' !! 0 = Some {| line := 1; column := 1 |} /\
    _computePosDetails 4 st' = Done (d, st').
Proof.
  eexists _, _. split; [reflexivity |].
  destruct (position_query_is_memoized 4
              (new_ParserState three_lines None 0 1 1) _ _ eq_refl)
    as (Hpos & Hkeep & Hagain & _).
  split; [exact Hpos |]. split; [| exact Hagain].
  apply Hkeep. reflexivity.
Defined.

(** X10.  A position query never reads [undefined], and it has no exit
    exactly when the cache holds no entry at or below the queried offset;
    with the entry that the constructor stores at index 0 every query
    returns. *)
Theorem position_query_exit pos st :
  _computePosDetails pos st <> UndefinedRead /\
  (_computePosDetails pos st = NoExit <->
     forall p, p <= pos -> _cache st !! p = None) /\
  (is_Some (_cache st !! 0) ->
     exists d st', _computePosDetails pos st = Done (d, st')).
Proof.
  assert (Hexit : _computePosDetails pos st = NoExit <->
                  forall p, p <= pos -> _cache st !! p = None).
  { unfold _computePosDetails.
    destruct (_cache st !! pos) as [d |] eqn:Hd.
    - split; [done |]. intros H. specialize (H pos ltac:(lia)). congruence.
    - pose proof (nearest_below_None (_cache st) pos) as Hnb.
      destruct (nearest_below (_cache st) pos) as [[p dp] | |] eqn:Hrun;
        cbn [bindE].
      + split; [done |]. intros H.
        assert (Hno : forall p, p < pos -> _cache st !! p = None)
          by (intros q Hq; apply H; lia).
        apply Hnb in Hno. discriminate.
      + by apply nearest_below_defined in Hrun.
      + split; [| done]. intros _ q Hq.
        destruct (decide (q = pos)) as [-> | Hne]; [done |].
        apply Hnb; [done | lia]. }
  assert (Hdef : _computePosDetails pos st <> UndefinedRead).
  { unfold _computePosDetails.
    destruct (_cache st !! pos) as [d |]; [done |].
    pose proof (nearest_below_defined (_cache st) pos).
    by destruct (nearest_below (_cache st) pos) as [[p dp] | |]. }
  split; [done |]. split; [done |].
  intros [d0 H0].
  destruct (_computePosDetails pos st) as [[d st'] | |] eqn:Hrun; eauto.
  - done.
  - pose proof (proj1 Hexit eq_refl 0 ltac:(lia)). congruence.
Qed.

Lemma position_query_exit_witness :
  exists d st',
    _computePosDetails 7 (new_ParserState three_lines None 0 1 1) = Done (d, st').
Proof.
  apply (position_query_exit 7 (new_ParserState three_lines None 0 1 1)).
  eexists. reflexivity.
Defined.

Lemma fold_count_line chars : forall d,
  line (fold_left count_char chars d) = line d + newlines chars.
Proof.
  unfold newlines.
  induction chars as [| c chars IH]; intros d; simpl; [lia |].
  rewrite IH. unfold count_char. destruct (decide (c = newline)) as [-> | Hne].
  - rewrite filter_cons_True by done. simpl. lia.
  - rewrite filter_cons_False by done. simpl. lia.
Qed.

Lemma fold_count_column_no_newline chars : forall d,
  newline ∉ chars ->
  column (fold_left count_char chars d) = column d + length chars.
Proof.
  induction chars as [| c chars IH]; intros d Hno; simpl; [lia |].
  apply not_elem_of_cons in Hno as [Hc Hno].
  rewrite IH by done. unfold count_char. rewrite decide_False by done.
  simpl. lia.
Qed.

Lemma fold_count_column_after_newline pre post d :
  newline ∉ post ->
  column (fold_left count_char (pre ++ newline :: post) d) = 1 + length post.
Proof.
  intros Hno. rewrite fold_left_app. cbn [fold_left].
  rewrite fold_count_column_no_newline by done.
  unfold count_char. by rewrite decide_True.
Qed.

Lemma scan_past_end inp n : forall p d,
  JS.length inp <= p ->
  scan inp n p d = {| line := line d; column := column d + n |}.
Proof.
  induction n as [| n IH]; intros p d Hp.
  - simpl. rewrite Nat.add_0_r. by destruct d.
  - cbn [scan]. rewrite IH by lia. unfold advance, JS.charCodeAt.
    rewrite get_None_length by done. simpl. f_equal. lia.
Qed.

(** X11.  Within the input, the line of an offset is the baseline line plus
    the number of newlines before the offset; the column is the baseline
    column plus the offset when no newline comes before it, and otherwise
    one plus the number of characters since the last newline. *)
Theorem line_and_column_of_offset inp source o0 l0 c0 st o :
  reachable (new_ParserState inp source o0 l0 c0) st ->
  o <= JS.length inp ->
  exists d st',
    _computePosDetails o st = Done (d, st') /\
    line d = l0 + newlines (chars_before inp o) /\
    (newline ∉ chars_before inp o -> column d = c0 + o) /\
    (forall pre post,
       chars_before inp o = pre ++ newline :: post -> newline ∉ post ->
       column d = 1 + length post).
Proof.
  intros Hreach Ho.
  destruct (reachable_sound _ _ _ _ _ _ Hreach) as [Hin Hsound].
  rewrite <- Hin in Hsound.
  destruct (_computePosDetails_sound _ o st Hsound) as (st' & Hrun & _).
  rewrite Hin, scan_fold in Hrun by (simpl; lia).
  rewrite drop_0 in Hrun. fold (chars_before inp o) in Hrun.
  eexists _, st'. split; [exact Hrun |].
  split; [apply fold_count_line |]. split.
  - intros Hno. rewrite fold_count_column_no_newline by done. simpl.
    unfold chars_before. rewrite length_take, length_list_ascii. lia.
  - intros pre post -> Hno. by apply fold_count_column_after_newline.
Qed.

Lemma line_and_column_of_offset_witness :
  exists d st',
    _computePosDetails 6 (new_ParserState three_lines None 0 1 1) = Done (d, st') /\
    line d = 2 /\ column d = 4.
Proof.
  destruct (line_and_column_of_offset three_lines None 0 1 1
              (new_ParserState three_lines None 0 1 1) 6
              (reachable_init _) ltac:(vm_compute; lia))
    as (d & st' & Hrun & Hline & _ & Hcol).
  exists d, st'. split; [exact Hrun |]. split.
  - rewrite Hline. reflexivity.
  - apply (Hcol ["a"%char; "b"%char] ["c"%char; "d"%char; "e"%char]);
      [reflexivity |].
    intros Hin. by repeat (apply elem_of_cons in Hin as [Hin | Hin];
      [discriminate Hin |]); apply elem_of_nil in Hin.
Defined.

(** X12.  Past the end of the input a position stays on the line of the
    end, and its column grows by one with each offset: what lies beyond
    the input counts as characters other than newlines. *)
Theorem position_past_the_end inp source o0 l0 c0 st o :
  reachable (new_ParserState inp source o0 l0 c0) st ->
  JS.length inp <= o ->
  exists d st',
    _computePosDetails o st = Done (d, st') /\
    line d = line (linear_scan inp l0 c0 (JS.length inp)) /\
    column d = column (linear_scan inp l0 c0 (JS.length inp))
               + (o - JS.length inp).
Proof.
  intros Hreach Ho.
  destruct (reachable_sound _ _ _ _ _ _ Hreach) as [Hin Hsound].
  rewrite <- Hin in Hsound.
  destruct (_computePosDetails_sound _ o st Hsound) as (st' & Hrun & _).
  rewrite Hin in Hrun.
  replace o with (JS.length inp + (o - JS.length inp)) in Hrun at 2 by lia.
  rewrite scan_split, scan_linear_scan, scan_past_end in Hrun by (simpl; lia).
  eexists _, st'. split; [exact Hrun |]. done.
Qed.

Lemma position_past_the_end_witness :
  exists d st',
    _computePosDetails 9 (new_ParserState three_lines None 0 1 1) = Done (d, st') /\
    line d = 3 /\ column d = 3.
Proof.
  destruct (position_past_the_end three_lines None 0 1 1
              (new_ParserState three_lines None 0 1 1) 9
              (reachable_init _) ltac:(vm_compute; lia))
    as (d & st' & Hrun & Hline & Hcol).
  exists d, st'. split; [exact Hrun |]. split.
  - rewrite Hline. reflexivity.
  - rewrite Hcol. reflexivity.
Defined.

End Positions.

(** ** Errors *)

Section Errors.

Implicit Types (st : ParserState) (base : PosDetails).

Lemma describeExpected_message expected :
  expected <> [] ->
  describeExpected expected = Done (join_phrases (phrases_of expected)).
Proof.
  intros Hne. rewrite describeExpected_phrases.
  destruct (phrases_of expected) eqn:Hp; [| done].
  by apply phrases_of_nil in Hp.
Qed.

Lemma buildError_contents_aux base st root rest :
  _expected st = root :: rest -> variants root <> [] ->
  cache_sound (input st) base (_cache st) ->
  exists st',
    buildError st
    = Done ({| SyntaxError.message :=
                 message_of (variants root)
                   (if offset root <? JS.length (input st)
                    then Some (JS.charAt (input st) (offset root)) else None);
               SyntaxError.expected := Some (variants root);
               SyntaxError.found :=
                 (if offset root <? JS.length (input st)
                  then Some (JS.charAt (input st) (offset root)) else None);
               SyntaxError.location :=
                 span (_source st) (input st) base (offset root)
                      (if offset root <? JS.length (input st)
                       then offset root + 1 else offset root) |}, st').
Proof.
  intros Hst Hne Hsound. unfold buildError.
  rewrite Hst. cbn [lookup list_lookup defined bindE].
  unfold buildStructuredError, SyntaxError.buildMessage.
  rewrite (describeExpected_message _ Hne). cbn [bindE].
  destruct (offset root <? JS.length (input st)) eqn:Hin.
  - destruct (_computeLocation_span base (offset root) (offset root + 1) st Hsound)
      as (st' & -> & _).
    by exists st'.
  - destruct (_computeLocation_span base (offset root) (offset root) st Hsound)
      as (st' & -> & _).
    by exists st'.
Qed.

(** X13.  The error of [buildError].  With a root frame that holds at
    least one variant, the error carries those variants; its message is
    [Expected], the joined phrases, [but], the description of what was
    found, [found.]; inside the input what was found is the character at
    the root frame's offset and the location spans that character; at or
    past the end nothing was found and the location is empty. *)
Theorem buildError_contents base st root rest :
  _expected st = root :: rest -> variants root <> [] ->
  cache_sound (input st) base (_cache st) ->
  exists st',
    let failPos := offset root in
    let inside := failPos <? JS.length (input st) in
    let found := if inside then Some (JS.charAt (input st) failPos) else None in
    buildError st
    = Done ({| SyntaxError.message := message_of (variants root) found;
               SyntaxError.expected := Some (variants root);
               SyntaxError.found := found;
               SyntaxError.location :=
                 span (_source st) (input st) base failPos
                      (if inside then failPos + 1 else failPos) |}, st') /\
    (inside = true -> exists c, found = Some (String c EmptyString)).
Proof.
  intros Hst Hne Hsound.
  destruct (buildError_contents_aux base st root rest Hst Hne Hsound)
    as (st' & Hrun).
  exists st'. cbn zeta. split; [exact Hrun |]. intros Hin.
  apply Nat.ltb_lt in Hin. destruct (get_lt_Some _ _ Hin) as [c Hc].
  exists c. apply Nat.ltb_lt in Hin. rewrite Hin.
  unfold JS.charAt. by rewrite Hc.
Qed.

Lemma buildError_contents_witness :
  exists e st',
    buildError failed_at_1 = Done (e, st') /\
    SyntaxError.message e
    = "Expected " +:+ String dquote "c" +:+ String dquote " but "
        +:+ String dquote "b" +:+ String dquote " found." /\
    SyntaxError.location e
    = {| source := None;
         start := {| p_offset := 1; p_line := 1; p_column := 2 |};
         end_ := {| p_offset := 2; p_line := 1; p_column := 3 |} |}.
Proof.
  destruct (buildError_contents {| line := 1; column := 1 |} failed_at_1
              {| offset := 1; variants := [ELiteral "c"] |} []
              eq_refl ltac:(discriminate))
    as (st' & Hrun & _).
  { apply (reachable_sound "ab" None 0 1 1).
    apply reachable_step with (st := new_ParserState "ab" None 0 1 1);
      [apply reachable_init | done | done]. }
  eexists _, st'. split; [exact Hrun |]. split; reflexivity.
Defined.

(** X14.  Left-over input.  When the rule function returns a result with
    the offset inside the input, on a stack that holds the root frame
    alone with an offset not beyond the current one, [parse] throws an
    error located at the current offset, whose expectations end with the
    end of input and which found the character there. *)
Theorem parse_left_over_input {V : Type} (ruleParseFunc : RuleFn V)
    base st result st2 root :
  ruleParseFunc (_begin st) = Done (Returns (Matched result), st2) ->
  _expected st2 = [root] ->
  offset root <= _offset st2 -> _offset st2 < JS.length (input st2) ->
  cache_sound (input st2) base (_cache st2) ->
  exists e st',
    parse ruleParseFunc st = Done (Throws e, st') /\
    SyntaxError.expected e
    = Some ((if offset root <? _offset st2 then [] else variants root)
            ++ [EEnd]) /\
    SyntaxError.found e = Some (JS.charAt (input st2) (_offset st2)) /\
    SyntaxError.location e
    = span (_source st2) (input st2) base (_offset st2) (_offset st2 + 1).
Proof.
  intros Hrule Hstack Hroot Hleft Hsound. unfold parse.
  rewrite Hrule. cbn [bindE]. rewrite decide_False by lia.
  assert (Hlt : (_offset st2 <? JS.length (input st2)) = true)
    by (by apply Nat.ltb_lt).
  rewrite Hlt. rewrite (_expect_run EEnd st2 [] root Hstack). cbn [bindE].
  assert (Hnlt : (_offset st2 <? offset root) = false)
    by (by apply Nat.ltb_ge).
  rewrite Hnlt. unfold throw_buildError.
  set (root' := {| offset := Nat.max (offset root) (_offset st2);
                   variants := (if offset root <? _offset st2 then []
                                else variants root) ++ [EEnd] |}).
  assert (Hne : variants root' <> []).
  { unfold root'. simpl. intros H. apply app_eq_nil in H as [_ H].
    discriminate. }
  destruct (buildError_contents_aux base
              (set_expected ([] ++ [root']) st2) root' [] eq_refl Hne Hsound)
    as (st' & Hrun).
  rewrite Hrun. cbn [bindE]. eexists _, st'. split; [reflexivity |].
  cbn [SyntaxError.expected SyntaxError.found SyntaxError.location
       root' offset variants input set_expected _source].
  rewrite Nat.max_r by lia. rewrite Hlt. done.
Qed.


Lemma parse_left_over_input_witness :
  exists e st',
    parse rule_any (new_ParserState "ab" None 0 1 1) = Done (Throws e, st') /\
    SyntaxError.expected e = Some [EEnd] /\
    SyntaxError.found e = Some "b".
Proof.
  destruct (parse_left_over_input rule_any {| line := 1; column := 1 |}
              (new_ParserState "ab" None 0 1 1) "a"
              (set_offset 1 (_begin (new_ParserState "ab" None 0 1 1)))
              {| offset := 0; variants := [] |}
              eq_refl eq_refl ltac:(simpl; lia) ltac:(vm_compute; lia))
    as (e & st' & Hrun & Hexp & Hfound & _).
  { apply (reachable_sound "ab" None 0 1 1).
    apply reachable_step with (st := new_ParserState "ab" None 0 1 1);
      [apply reachable_init | done | done]. }
  exists e, st'. split; [exact Hrun |]. split; [exact Hexp | exact Hfound].
Defined.

Lemma describeExpected_user description :
  describeExpected [EUser description] = Done description.
Proof. reflexivity. Qed.

(** X15.  The errors raised by hand.  [expected] throws an error with the
    single user expectation, the text matched so far as what was found and
    the message [Expected], the description, [but], the description of
    that text, [found.]; [error] throws an error with its message as
    given and neither expectations nor a found text.  Both take the given
    location, or else the span from the mark to the offset, and leave
    everything but the cache as it was. *)
Theorem raised_by_hand base st (loc : option Location) :
  cache_sound (input st) base (_cache st) ->
  exists st',
    let l := default (span (_source st) (input st) base (_mark st) (_offset st))
                     loc in
    (forall description,
       expected description loc st
       = Done (Throws {| SyntaxError.message :=
                           "Expected " +:+ description +:+ " but "
                             +:+ describeFound (Some (text st)) +:+ " found.";
                         SyntaxError.expected := Some [EUser description];
                         SyntaxError.found := Some (text st);
                         SyntaxError.location := l |}, st')) /\
    (forall message,
       error message loc st
       = Done (Throws {| SyntaxError.message := message;
                         SyntaxError.expected := None;
                         SyntaxError.found := None;
                         SyntaxError.location := l |}, st')) /\
    st' = set_cache (_cache st') st /\
    (is_Some loc -> st' = st).
Proof.
  intros Hsound. destruct loc as [l |].
  - exists st. cbn zeta. cbn [default].
    split; [| split; [| split]].
    + intros description. unfold expected. cbn [bindE].
      unfold buildStructuredError, SyntaxError.buildMessage.
      by rewrite describeExpected_user.
    + done.
    + by destruct st.
    + done.
  - destruct (_computeLocation_span base (_mark st) (_offset st) st Hsound)
      as (st' & Hloc & _ & Hi & Hs & Ho & Hm & He).
    exists st'. cbn zeta. cbn [default].
    split; [| split; [| split]].
    + intros description. unfold expected, location. rewrite Hloc.
      cbn [bindE]. unfold buildStructuredError, SyntaxError.buildMessage.
      by rewrite describeExpected_user.
    + intros message. unfold error, location. by rewrite Hloc.
    + destruct st, st'; unfold set_cache; simpl in *; by subst.
    + by intros [? ?].
Qed.

Lemma raised_by_hand_witness :
  exists st',
    expected "a digit" None matched_1_3
    = Done (Throws {| SyntaxError.message :=
                        "Expected a digit but " +:+ String dquote "bc"
                          +:+ String dquote " found.";
                      SyntaxError.expected := Some [EUser "a digit"];
                      SyntaxError.found := Some "bc";
                      SyntaxError.location :=
                        {| source := None;
                           start := {| p_offset := 1; p_line := 1; p_column := 2 |};
                           end_ := {| p_offset := 3; p_line := 1; p_column := 4 |} |} |},
            st').
Proof.
  destruct (raised_by_hand {| line := 1; column := 1 |} matched_1_3 None)
    as (st' & Hexp & _).
  { apply (reachable_sound "abcd" None 0 1 1).
    apply reachable_step with (st := new_ParserState "abcd" None 0 1 1);
      [apply reachable_init | done | done]. }
  exists st'. apply (Hexp "a digit").
Defined.

End Errors.

(** ** Matchers *)

Section MatcherRuns.

Implicit Types (st : ParserState) (s a b literal : string).

Lemma matcher_cases m :
  case_sensitive m \/
  exists toLowerCase literal, m = MLiteralIC toLowerCase literal.
Proof. destruct m; simpl; eauto. Qed.

Lemma run_matcher_ok m st :
  case_sensitive m -> advances_or_fails (run_matcher m) st.
Proof.
  destruct m as [| regexp Hre | c | literal | toLowerCase literal];
    cbn [run_matcher case_sensitive]; intros Hcase.
  - apply matchAny_ok.
  - by apply matchClass_ok.
  - apply matchChar_ok.
  - apply matchLiteral_ok.
  - done.
Qed.

Lemma run_matcher_offset m st t st' :
  run_matcher m st = (Matched t, st') ->
  st' = set_offset (_offset st + consumed m) st.
Proof.
  destruct m as [| regexp Hre | c | literal | toLowerCase literal];
    cbn [run_matcher consumed];
    unfold matchAny, matchClass, matchChar, matchLiteral, matchLiteralIC;
    rewrite ?Nat.add_1_r.
  - destruct (_ <? _); [by intros [= <- <-] | done].
  - destruct (regexp (JS.charAt _ _)); [by intros [= <- <-] | done].
  - destruct (decide _); [by intros [= <- <-] | done].
  - destruct (decide _); [by intros [= <- <-] | done].
  - destruct (decide _); [by intros [= <- <-] | done].
Qed.

(** The text a matcher returns is the text of the input at the old
    offset, as far as the offset has moved. *)
Lemma run_matcher_text m st t st' :
  run_matcher m st = (Matched t, st') ->
  JS.substr (input st) (_offset st) (consumed m) = t /\
  (case_sensitive m -> JS.length t = consumed m).
Proof.
  intros Hrun. pose proof (run_matcher_offset m st t st' Hrun) as Hst'.
  destruct (matcher_cases m) as [Hcase | (toLowerCase & literal & ->)].
  - destruct (run_matcher_ok m st Hcase) as [(t0 & Hrun0 & Htext) | Hfail];
      [| congruence].
    rewrite Hrun in Hrun0. injection Hrun0 as <- Hst0.
    assert (Hlen : JS.length t = consumed m).
    { rewrite Hst' in Hst0. apply (f_equal _offset) in Hst0.
      cbn [_offset set_offset] in Hst0. lia. }
    by rewrite <- Hlen.
  - cbn [run_matcher consumed case_sensitive] in *.
    destruct (matchLiteralIC_run toLowerCase literal st)
      as [[_ Hrun0] | [_ Hrun0]]; [| congruence].
    rewrite Hrun in Hrun0. by injection Hrun0 as -> _.
Qed.

Lemma substring_from_mark s m n :
  JS.substring s m (m + n) = JS.substr s m n.
Proof.
  unfold JS.substring, JS.substr.
  rewrite Nat.min_l, Nat.max_r by lia. f_equal. lia.
Qed.

(** X16.  The text of a match.  When the mark stands at the offset and a
    matcher succeeds, [text] is the text the matcher returned and [range]
    goes from the old offset as far as the matcher has moved it.  The
    returned text is never longer than that range; it has the length of
    the range for the matchers that compare the text itself, and for
    [matchLiteralIC] where lower-casing keeps the length of the text.
    When the matcher fails, [text] is empty. *)
Theorem text_after_match m st :
  _mark st = _offset st ->
  (forall t st', run_matcher m st = (Matched t, st') ->
     text st' = t /\
     range st' = (_offset st, _offset st + consumed m) /\
     JS.length t <= consumed m /\
     (case_sensitive m -> JS.length t = consumed m) /\
     (forall toLowerCase literal,
        m = MLiteralIC toLowerCase literal ->
        JS.length (toLowerCase t) = JS.length t ->
        JS.length t = consumed m)) /\
  (forall st', run_matcher m st = (FAILED, st') -> text st' = EmptyString).
Proof.
  intros Hmark. split.
  - intros t st' Hrun.
    pose proof (run_matcher_offset m st t st' Hrun) as ->.
    destruct (run_matcher_text m st t _ Hrun) as [Htext Hlen].
    unfold text, range. cbn [set_offset input _mark _offset].
    rewrite Hmark, substring_from_mark.
    split; [exact Htext |]. split; [done |].
    split; [rewrite <- Htext, substr_length; lia |].
    split; [exact Hlen |].
    intros toLowerCase literal -> Hkeep.
    cbn [run_matcher consumed] in *.
    destruct (matchLiteralIC_run toLowerCase literal st)
      as [[Heq Hrun0] | [_ Hrun0]]; [| congruence].
    rewrite Htext in Heq. by rewrite <- Hkeep, Heq.
  - intros st' Hrun.
    assert (Hst' : st' = st).
    { destruct m as [| regexp Hre | c | literal | toLowerCase literal];
        cbn [run_matcher] in Hrun;
        unfold matchAny, matchClass, matchChar, matchLiteral, matchLiteralIC
          in Hrun.
      - by destruct (_ <? _); injection Hrun.
      - by destruct (regexp (JS.charAt _ _)); injection Hrun.
      - by destruct (decide _); injection Hrun.
      - by destruct (decide _); injection Hrun.
      - by destruct (decide _); injection Hrun. }
    rewrite Hst'. unfold text. rewrite Hmark.
    replace (_offset st) with (_offset st + 0) at 2 by lia.
    rewrite substring_from_mark.
    pose proof (substr_length (input st) (_offset st) 0) as Hl.
    by destruct (JS.substr (input st) (_offset st) 0).
Qed.

Lemma text_after_match_witness :
  text (matchLiteralIC JS.toLowerCase "bc" (set_mark 1 (set_offset 1
          (new_ParserState "aBCd" None 0 1 1)))).2 = "BC" /\
  range (matchLiteralIC JS.toLowerCase "bc" (set_mark 1 (set_offset 1
          (new_ParserState "aBCd" None 0 1 1)))).2 = (1, 3).
Proof.
  destruct (text_after_match (MLiteralIC JS.toLowerCase "bc")
              (set_mark 1 (set_offset 1 (new_ParserState "aBCd" None 0 1 1)))
              eq_refl) as [Hmatch _].
  destruct (Hmatch "BC" _ eq_refl) as (Htext & Hrange & _).
  split; [exact Htext | exact Hrange].
Defined.


Lemma substr_list s : forall from len,
  list_ascii_of_string (JS.substr s from len)
  = take len (drop from (list_ascii_of_string s)).
Proof.
  unfold JS.substr.
  induction s as [| c s IH]; intros [| from] [| len]; simpl;
    try reflexivity; try (by rewrite IH).
Qed.

Lemma list_ascii_append a b :
  list_ascii_of_string (a +:+ b)
  = list_ascii_of_string a ++ list_ascii_of_string b.
Proof.
  induction a as [| c a IH]; [done |]. rewrite append_cons. simpl.
  by rewrite IH.
Qed.

Lemma list_ascii_inj a b :
  list_ascii_of_string a = list_ascii_of_string b -> a = b.
Proof.
  intros H. apply (f_equal string_of_list_ascii) in H.
  by rewrite !string_of_list_ascii_of_string in H.
Qed.

Lemma take_plus {A : Type} (l : list A) : forall n m,
  take (n + m) l = take n l ++ take m (drop n l).
Proof.
  induction l as [| x l IH]; intros [| n] m; simpl; try done.
  - by destruct m.
  - by rewrite IH.
Qed.

(** The text at an offset is a concatenation exactly when its parts are
    the texts at the offset and right after the first part. *)
Lemma substr_append s from a b :
  JS.substr s from (JS.length (a +:+ b)) = a +:+ b <->
  JS.substr s from (JS.length a) = a /\
  JS.substr s (from + JS.length a) (JS.length b) = b.
Proof.
  rewrite length_append.
  assert (Hsplit : list_ascii_of_string
                     (JS.substr s from (JS.length a + JS.length b))
                   = list_ascii_of_string (JS.substr s from (JS.length a))
                     ++ list_ascii_of_string
                          (JS.substr s (from + JS.length a) (JS.length b))).
  { rewrite !substr_list, <- drop_drop. apply take_plus. }
  split.
  - intros Heq. apply (f_equal list_ascii_of_string) in Heq.
    rewrite Hsplit, list_ascii_append in Heq.
    assert (Hlen : length (list_ascii_of_string (JS.substr s from (JS.length a)))
                   = length (list_ascii_of_string a)).
    { apply (f_equal length) in Heq. rewrite !length_app in Heq.
      rewrite !length_list_ascii in *. rewrite !substr_length in *. lia. }
    apply app_inj_1 in Heq as [H1 H2]; [| done].
    split; by apply list_ascii_inj.
  - intros [H1 H2]. apply list_ascii_inj.
    by rewrite Hsplit, H1, H2, list_ascii_append.
Qed.

(** X17.  A literal that is a concatenation matches as its two parts in
    sequence: [matchLiteral (a + b)] succeeds exactly when [matchLiteral a]
    succeeds and [matchLiteral b] succeeds after it, with the same text
    and the same final state; otherwise it fails and the state is as
    before. *)
Theorem matchLiteral_of_concatenation a b st :
  matchLiteral (a +:+ b) st = match_in_sequence a b st.
Proof.
  unfold match_in_sequence, matchLiteral. cbn [set_offset input _offset].
  pose proof (substr_append (input st) (_offset st) a b) as Happ.
  destruct (decide (JS.substr (input st) (_offset st) (JS.length (a +:+ b))
                    = a +:+ b)) as [Hab | Hab].
  - destruct (proj1 Happ Hab) as [Ha Hb].
    rewrite (decide_True (P := _ = a)) by done. cbn [input set_offset].
    rewrite (decide_True (P := _ = b)) by done.
    f_equal. rewrite length_append. destruct st; unfold set_offset; simpl.
    f_equal. lia.
  - destruct (decide (JS.substr (input st) (_offset st) (JS.length a) = a))
      as [Ha | Ha]; [| done].
    cbn [input set_offset].
    destruct (decide (_ = b)) as [Hb | Hb]; [| done].
    destruct Hab. by apply Happ.
Qed.

(** X18.  Matchers that agree.  [matchChar] called with a character and
    its code is [matchLiteral] on the literal of that one character, and
    [matchAny] is [matchClass] with a pattern that accepts every
    character. *)
Theorem matchers_agree st :
  (forall c,
     matchChar (String c EmptyString) (nat_of_ascii c) st
     = matchLiteral (String c EmptyString) st) /\
  matchAny st = matchClass any_character st.
Proof.
  split.
  - intros c. unfold matchChar, matchLiteral, JS.charCodeAt.
    cbn [JS.length String.length]. rewrite Nat.add_1_r.
    destruct (String.get (_offset st) (input st)) as [c' |] eqn:Hget.
    + rewrite (substr_one _ _ _ Hget). cbn [fmap option_fmap option_map].
      destruct (decide (c' = c)) as [-> | Hne].
      * by rewrite !decide_True.
      * rewrite !decide_False; [done | congruence |].
        intros [= Heq]. apply Hne.
        apply (f_equal ascii_of_nat) in Heq.
        by rewrite !ascii_nat_embedding in Heq.
    + rewrite decide_False by done.
      rewrite decide_False; [done |].
      intros Heq.
      pose proof (substr_length (input st) (_offset st) 1) as Hl.
      rewrite Heq in Hl. cbn [JS.length String.length] in Hl.
      destruct (le_lt_dec (JS.length (input st)) (_offset st)) as [Hge | Hlt].
      * lia.
      * destruct (get_lt_Some _ _ Hlt) as [c0 Hc0]. congruence.
  - unfold matchAny, matchClass, JS.charAt.
    destruct (String.get (_offset st) (input st)) as [c |] eqn:Hget.
    + apply get_Some_length in Hget. apply Nat.ltb_lt in Hget.
      by rewrite Hget.
    + destruct (_offset st <? JS.length (input st)) eqn:Hlt; [| done].
      apply Nat.ltb_lt in Hlt. destruct (get_lt_Some _ _ Hlt) as [c Hc].
      congruence.
Qed.

End MatcherRuns.

(** ** The default tracer *)

Section Traces.

Import DefaultTracer.

Implicit Types (event : Event) (tracer : t) (events : list Event).

Lemma trace_all_app events1 events2 tracer :
  trace_all (events1 ++ events2) tracer
  = match trace_all events1 tracer with
    | (Traced, tracer') => trace_all events2 tracer'
    | failure => failure
    end.
Proof.
  revert tracer. induction events1 as [| event events1 IH]; intros tracer.
  - done.
  - cbn [app trace_all]. destruct (trace event tracer) as [[| |] tracer'];
      [apply IH | done | done].
Qed.

Lemma repeat_defined s (n : nat) : is_Some (repeat s (Z.of_nat n)).
Proof.
  unfold repeat. replace (Z.of_nat n <? 0)%Z with false; [by eexists |].
  symmetry. apply Z.ltb_ge. lia.
Qed.

Lemma log_line_defined event (level : nat) :
  is_enter event \/ is_leave event ->
  log_line event (Z.of_nat level) = Some (line_at event level).
Proof.
  intros Htype. unfold line_at, log_line.
  assert (Hpad : is_Some (pad (type event) 10)).
  { unfold pad. destruct Htype as [-> | [-> | ->]]; by eexists. }
  destruct Hpad as [padded ->]. cbn [mbind option_bind].
  destruct (repeat_defined "  " level) as [indent ->]. done.
Qed.

Lemma trace_enter event tracer (level : nat) :
  is_enter event -> indentLevel tracer = Z.of_nat level ->
  trace event tracer
  = (Traced, {| indentLevel := Z.of_nat (S level);
                console := console tracer ++ [line_at event level] |}).
Proof.
  intros Hty Hlevel. unfold trace. rewrite decide_True by done.
  rewrite Hlevel. unfold log. rewrite log_line_defined by (by left).
  cbn [set_level indentLevel console]. do 3 f_equal. lia.
Qed.

Lemma trace_leave event tracer (level : nat) :
  is_leave event -> indentLevel tracer = Z.of_nat (S level) ->
  trace event tracer
  = (Traced, {| indentLevel := Z.of_nat level;
                console := console tracer ++ [line_at event level] |}).
Proof.
  intros Hty Hlevel.
  assert (Hrun : log event (indentLevel tracer - 1)
                     (set_level (indentLevel tracer - 1) tracer)
                 = (Traced, {| indentLevel := Z.of_nat level;
                               console := console tracer
                                          ++ [line_at event level] |})).
  { rewrite Hlevel.
    replace (Z.of_nat (S level) - 1)%Z with (Z.of_nat level) by lia.
    unfold log. by rewrite log_line_defined by (by right). }
  unfold trace.
  destruct (decide (type event = "rule.enter")) as [He | _].
  { destruct Hty as [H | H]; rewrite He in H; discriminate. }
  destruct (decide (type event = "rule.match")) as [_ | Hm]; [exact Hrun |].
  destruct (decide (type event = "rule.fail")) as [_ | Hf]; [exact Hrun |].
  destruct Hty; contradiction.
Qed.

Lemma nested_run level events lines :
  nested level events lines ->
  forall tracer,
    indentLevel tracer = Z.of_nat level ->
    trace_all events tracer
    = (Traced, {| indentLevel := Z.of_nat level;
                  console := console tracer ++ lines |}).
Proof.
  induction 1 as [level | level enter inner leave rest lines_inner lines_rest
                            Henter Hleave _ IHinner _ IHrest];
    intros tracer Hlevel.
  - cbn [trace_all]. rewrite app_nil_r, <- Hlevel. by destruct tracer.
  - cbn [trace_all]. rewrite (trace_enter enter tracer level Henter Hlevel).
    rewrite trace_all_app, IHinner by done.
    cbn [trace_all console].
    erewrite trace_leave; [| done | reflexivity].
    rewrite IHrest by done. cbn [console].
    do 2 f_equal. rewrite <- !app_assoc. done.
Qed.


Lemma repeat_two_spaces (level : nat) :
  repeat "  " (Z.of_nat level) = Some (spaces (2 * level)).
Proof.
  unfold repeat. replace (Z.of_nat level <? 0)%Z with false
    by (symmetry; apply Z.ltb_ge; lia).
  rewrite Nat2Z.id. f_equal. unfold spaces.
  induction level as [| level IH]; [done |].
  replace (2 * S level) with (S (S (2 * level))) by lia.
  rewrite !Nat.iter_succ, IH. done.
Qed.

(** X19.  Nested calls are traced with matching indentation.  For the
    events of rule calls that are each entered and left once, traced from a
    level that is not negative, [trace] never throws; it writes one line
    per event, the two lines of a call two spaces per level deep and the
    calls inside it one level deeper, and the level is back at its start
    at the end.  A line is the location, the event type padded to ten
    characters, the indentation and the rule name. *)
Theorem nested_calls_are_traced level events lines tracer :
  nested level events lines ->
  indentLevel tracer = Z.of_nat level ->
  trace_all events tracer
  = (Traced, {| indentLevel := Z.of_nat level;
                console := console tracer ++ lines |}) /\
  length lines = length events /\
  (forall event depth,
     is_enter event \/ is_leave event ->
     line_at event depth
     = toString2 (location event) +:+ " " +:+ type event
         +:+ spaces (10 - JS.length (type event)) +:+ " "
         +:+ spaces (2 * depth) +:+ rule event).
Proof.
  intros Hnested Hlevel. split; [by apply nested_run |]. split.
  - clear Hlevel. induction Hnested as [| ? ? ? ? ? ? ? _ _ _ IH1 _ IH2];
      [done |].
    cbn [length]. rewrite !length_app. cbn [length]. lia.
  - intros event depth Htype. unfold line_at, log_line.
    rewrite repeat_two_spaces.
    assert (Hpad : pad (type event) 10
                   = Some (type event +:+ spaces (10 - JS.length (type event)))).
    { destruct Htype as [-> | [-> | ->]]; reflexivity. }
    rewrite Hpad. cbn [mbind option_bind default].
    by rewrite !append_assoc.
Qed.

Lemma nested_calls_are_traced_witness :
  trace_all b_inside_a new
  = (Traced,
     {| indentLevel := 0;
        console := [ "1:1-1:1 rule.enter a";
                     "1:2-1:2 rule.enter   b";
                     "1:2-1:2 rule.fail    b";
                     "1:3-1:3 rule.match a" ] |}).
Proof.
  assert (Hnested : nested 0 b_inside_a
            [ "1:1-1:1 rule.enter a"; "1:2-1:2 rule.enter   b";
              "1:2-1:2 rule.fail    b"; "1:3-1:3 rule.match a" ]).
  { apply (nested_call 0 (event_of "rule.enter" "a" 0)
             [event_of "rule.enter" "b" 1; event_of "rule.fail" "b" 1]
             (event_of "rule.match" "a" 2) []
             [ "1:2-1:2 rule.enter   b"; "1:2-1:2 rule.fail    b" ] []);
      [reflexivity | by left | | apply nested_nil].
    apply (nested_call 1 (event_of "rule.enter" "b" 1) []
             (event_of "rule.fail" "b" 1) [] [] []);
      [reflexivity | by right | apply nested_nil | apply nested_nil]. }
  apply (nested_calls_are_traced 0 b_inside_a _ new Hnested eq_refl).
Defined.

(** X20.  Events the tracer rejects.  Leaving a rule at a level that is
    not positive, or entering one at a negative level, is a [RangeError]:
    nothing is written and the level has already moved.  An event of any
    other type is an error with the message [Invalid event type: T.], and
    the tracer is as before. *)
Theorem rejected_events event tracer :
  (is_leave event -> (indentLevel tracer <= 0)%Z ->
     trace event tracer
     = (RangeError, set_level (indentLevel tracer - 1) tracer)) /\
  (is_enter event -> (indentLevel tracer < 0)%Z ->
     trace event tracer
     = (RangeError, set_level (indentLevel tracer + 1) tracer)) /\
  (~ is_enter event -> ~ is_leave event ->
     trace event tracer
     = (InvalidEvent ("Invalid event type: " +:+ type event +:+ "."),
        tracer)).
Proof.
  assert (Hneg : forall level t', (level < 0)%Z ->
            is_enter event \/ is_leave event ->
            log event level t' = (RangeError, t')).
  { intros level t' Hlevel Htype. unfold log, log_line, repeat.
    replace (level <? 0)%Z with true by (symmetry; apply Z.ltb_lt; lia).
    assert (Hpad : is_Some (pad (type event) 10)).
    { unfold pad. destruct Htype as [-> | [-> | ->]]; by eexists. }
    by destruct Hpad as [padded ->]. }
  unfold trace. split; [| split].
  - intros Hleave Hlevel.
    destruct (decide (type event = "rule.enter")) as [He | _].
    { destruct Hleave as [H | H]; rewrite He in H; discriminate. }
    destruct (decide (type event = "rule.match")) as [_ | Hm];
      [apply Hneg; [lia | by right] |].
    destruct (decide (type event = "rule.fail")) as [_ | Hf];
      [apply Hneg; [lia | by right] |].
    destruct Hleave; contradiction.
  - intros Henter Hlevel. rewrite decide_True by done.
    apply Hneg; [lia | by left].
  - intros Hne Hnl. unfold is_enter, is_leave in *.
    rewrite !decide_False by tauto. done.
Qed.

Lemma rejected_events_witness :
  trace (event_of "rule.match" "a" 0) new
  = (RangeError, {| indentLevel := -1; console := [] |}) /\
  trace (event_of "rule.leave" "a" 0) new
  = (InvalidEvent "Invalid event type: rule.leave.", new).
Proof.
  destruct (rejected_events (event_of "rule.match" "a" 0) new) as (Hleave & _).
  destruct (rejected_events (event_of "rule.leave" "a" 0) new) as (_ & _ & Hbad).
  split.
  - apply Hleave; [by left | reflexivity].
  - apply Hbad.
    + discriminate.
    + intros [H | H]; discriminate H.
Defined.

End Traces.

(** ** Duplicates and single phrases *)

Section Phrases.

Implicit Types (l : list string) (es : list Expectation).

Lemma uniq_head b l : head (uniq (b :: l)) = Some b.
Proof.
  revert b. induction l as [| c l IH]; intros b; [done |].
  change (uniq (b :: c :: l))
    with (if decide (b = c) then uniq (c :: l) else b :: uniq (c :: l)).
  destruct (decide (b = c)) as [-> | _]; [apply IH | done].
Qed.

Lemma uniq_no_equal_neighbours l : forall i x y,
  uniq l !! i = Some x -> uniq l !! S i = Some y -> x <> y.
Proof.
  induction l as [| a l IH]; intros i x y Hx Hy; [done |].
  destruct l as [| b l]; [by destruct i |].
  change (uniq (a :: b :: l))
    with (if decide (a = b) then uniq (b :: l) else a :: uniq (b :: l))
    in Hx, Hy.
  destruct (decide (a = b)) as [-> | Hne]; [by eapply IH |].
  destruct i as [| i]; [| by eapply IH].
  injection Hx as <-. change (uniq (b :: l) !! 0 = Some y) in Hy.
  rewrite <- head_lookup, uniq_head in Hy. by injection Hy as <-.
Qed.

Lemma uniq_fixed l :
  (forall i x y, l !! i = Some x -> l !! S i = Some y -> x <> y) ->
  uniq l = l.
Proof.
  induction l as [| a l IH]; intros Hno; [done |].
  destruct l as [| b l]; [done |].
  change (uniq (a :: b :: l))
    with (if decide (a = b) then uniq (b :: l) else a :: uniq (b :: l)).
  rewrite decide_False by (by apply (Hno 0)).
  f_equal. apply IH. intros i x y Hx Hy. by apply (Hno (S i)).
Qed.

(** X21.  The loop of [describeExpected] that removes duplicates, on any
    array: no two neighbours of the result are equal, the result holds the
    same strings as the array, a second pass changes nothing, and the
    empty array stays empty. *)
Theorem dedupe_removes_equal_neighbours l :
  (forall i x y,
     dedupe l !! i = Some x -> dedupe l !! S i = Some y -> x <> y) /\
  (forall x, x ∈ dedupe l <-> x ∈ l) /\
  dedupe (dedupe l) = dedupe l /\
  length (dedupe l) <= length l /\
  (dedupe l = [] <-> l = []).
Proof.
  rewrite !dedupe_uniq.
  split; [apply uniq_no_equal_neighbours |].
  split; [apply uniq_elem_of |].
  split; [apply uniq_fixed, uniq_no_equal_neighbours |].
  split.
  - induction l as [| a l IH]; [done |].
    destruct l as [| b l]; [done |].
    change (uniq (a :: b :: l))
      with (if decide (a = b) then uniq (b :: l) else a :: uniq (b :: l)).
    destruct (decide (a = b)); simpl in *; lia.
  - split; [| by intros ->].
    intros Hnil. destruct l as [| a l]; [done |].
    assert (Hin : a ∈ uniq (a :: l)) by (apply uniq_elem_of; by left).
    rewrite Hnil in Hin. by apply elem_of_nil in Hin.
Qed.

(** X22.  One phrase, however often.  When every expectation of a
    non-empty sequence renders to the same phrase, as when one expectation
    is registered again and again, [describeExpected] is that phrase. *)
Theorem describeExpected_one_phrase es p :
  es <> [] ->
  (forall e, e ∈ es -> describeExpectation e = p) ->
  describeExpected es = Done p.
Proof.
  intros Hne Hall. rewrite describeExpected_phrases.
  assert (Hp : phrases_of es = [p]).
  { apply strictly_sorted_unique;
      [apply phrases_of_sorted | repeat constructor |].
    intros x. rewrite phrases_of_elem_of, list_elem_of_fmap, list_elem_of_singleton.
    split.
    - intros (e & -> & He). by apply Hall.
    - intros ->. destruct es as [| e es]; [done |].
      exists e. split; [symmetry; apply Hall |]; by left. }
  by rewrite Hp.
Qed.

Lemma describeExpected_one_phrase_witness :
  describeExpected [ERule "digit"; EUser "digit"; ERule "digit"] = Done "digit".
Proof.
  apply describeExpected_one_phrase; [discriminate |].
  intros e He.
  repeat (apply elem_of_cons in He as [-> | He]; [reflexivity |]).
  by apply elem_of_nil in He.
Defined.

End Phrases.

(** ** What [parse] returns *)

Section ParseReturns.

Context {V : Type}.
Implicit Types (st : ParserState) (ruleParseFunc : RuleFn V).

(** X23.  [parse] returns a value only when the rule function returned
    that value with the offset at the end of the input, and then the state
    is the one the rule function left; in every other case in which it
    completes it throws.  An error thrown by the rule function is thrown
    on as it is. *)
Theorem parse_returns_only_at_the_end ruleParseFunc st :
  (forall result st',
     parse ruleParseFunc st = Done (Returns result, st') ->
     ruleParseFunc (_begin st) = Done (Returns (Matched result), st') /\
     _offset st' = JS.length (input st')) /\
  (forall e st',
     ruleParseFunc (_begin st) = Done (Throws e, st') ->
     parse ruleParseFunc st = Done (Throws e, st')).
Proof.
  assert (Hthrow : forall st1 result st',
            @throw_buildError V st1 <> Done (Returns result, st')).
  { intros st1 result st'. unfold throw_buildError.
    by destruct (buildError st1) as [[e st2] | |]. }
  unfold parse. split.
  - intros result st' Hrun.
    destruct (ruleParseFunc (_begin st)) as [[[[| v] | e] st1] | |];
      cbn [bindE] in Hrun; try done.
    + by apply Hthrow in Hrun.
    + destruct (decide (_offset st1 = JS.length (input st1))) as [Hend | _].
      * by injection Hrun as -> ->.
      * destruct (_offset st1 <? JS.length (input st1)).
        -- destruct (_expect EEnd st1) as [st2 | |]; cbn [bindE] in Hrun;
             try done.
           by apply Hthrow in Hrun.
        -- by apply Hthrow in Hrun.
  - intros e st' Hrule. by rewrite Hrule.
Qed.

End ParseReturns.

Lemma parse_returns_only_at_the_end_witness :
  exists st',
    parse rule_any (new_ParserState "a" None 0 1 1) = Done (Returns "a", st') /\
    _offset st' = JS.length (input st').
Proof.
  eexists. split; [reflexivity |].
  apply (proj1 (parse_returns_only_at_the_end rule_any
                  (new_ParserState "a" None 0 1 1)) "a").
  reflexivity.
Defined.
